(** * A shallow embedding of the Go rule engine of [game_logic.py]

    The engine is the Python class [GoGame]: an N x N integer grid
    (0 = empty, 1 = black, 2 = white), a turn flag, a prisoner dictionary
    keyed by the colour names, a stack of (board, prisoners) snapshots used
    by undo, and a log of earlier boards used by the ko test.

    Every method of the class becomes a function on the record [GoGame];
    a method that mutates [self] returns the new record, and [place_stone]
    returns its boolean result together with the new record. *)

From Stdlib Require Import ZArith QArith.
From stdpp Require Import base option list gmap strings.

Local Open Scope Z_scope.

(** ** Data *)

(** A numpy array of shape (size, size), indexed [board[x, y]]. *)
Abbreviation Board := (list (list Z)).

(** A pair of indices, as the tuples networkx uses for grid nodes. *)
Abbreviation coord := (Z * Z)%type.

(** [collections.defaultdict(int)]: reading a missing key gives 0. *)
Abbreviation Prisoners := (gmap string Z).

Record GoGame : Type := mkGoGame {
  size : Z;
  board : Board;
  black_turn : bool;
  prisoners : Prisoners;
  history : list (Board * Prisoners);
  prev_boards : list Board
}.

(** [np.zeros((size, size), dtype=int)] *)
Definition zeros (n : Z) : Board :=
  replicate (Z.to_nat n) (replicate (Z.to_nat n) 0).

(** [GoGame(size)] *)
Definition init (n : Z) : GoGame :=
  {| size := n;
     board := zeros n;
     black_turn := true;
     prisoners := ∅;
     history := [];
     prev_boards := [] |}.

(** [board[x, y]] as a read.  Every read in the source sits behind a bounds
    test [0 <= x < size], [0 <= y < size]; outside the array the model
    answers 0 and that answer is never consulted. *)
Definition getitem (b : Board) (x y : Z) : Z :=
  if (0 <=? x) && (0 <=? y) then
    match b !! Z.to_nat x with
    | Some r => default 0 (r !! Z.to_nat y)
    | None => 0
    end
  else 0.

(** [board[x, y] = v]; every write in the source is in bounds. *)
Definition setitem (b : Board) (x y : Z) (v : Z) : Board :=
  alter (λ r, <[Z.to_nat y := v]> r) (Z.to_nat x) b.

(** [0 <= x < size and 0 <= y < size] *)
Definition in_bounds (n : Z) (x y : Z) : bool :=
  (0 <=? x) && (x <? n) && (0 <=? y) && (y <? n).

(** [np.array_equal(a, b)] *)
Definition array_equal (a b : Board) : bool := bool_decide (a = b).

(** [prisoners[c]] on a defaultdict, as a value. *)
Definition count_of (p : Prisoners) (c : string) : Z := default 0 (p !! c).

(** ** [is_valid_move] *)

Definition is_valid_move (g : GoGame) (col row : Z) : bool :=
  if (col <? 0) || (col >=? size g) || (row <? 0) || (row >=? size g)
  then false
  else if negb (getitem (board g) col row =? 0) then false
  else true.

(** ** [get_stone_groups]

    The source builds [nx.grid_graph(dim=[size, size])], removes every node
    that does not carry a stone of the colour, and returns
    [nx.connected_components]: for each node not seen so far, in node order,
    the set reached from it by breadth-first search.  Nodes of the grid graph
    are listed like [itertools.product(range(size), range(size))].  A group
    is a Python set there and a list here; [get_stone_groups_NoDup] shows
    that the list repeats no node, so that [len(group)] is its length. *)

Definition all_spaces (n : Z) : list coord :=
  x ← seqZ 0 n; y ← seqZ 0 n; [(x, y)].

(** Edges of the grid graph: the two nodes differ by one step on one axis. *)
Definition adjacent (u v : coord) : bool :=
  Z.abs (u.1 - v.1) + Z.abs (u.2 - v.2) =? 1.

Definition color_code (color : string) : Z :=
  if bool_decide (color = "black"%string) then 1 else 2.

(** The nodes left in the graph, in node order. *)
Definition stones (n : Z) (b : Board) (color : string) : list coord :=
  filter (λ c, getitem b c.1 c.2 = color_code color) (all_spaces n).

(** Breadth-first search from the nodes of [queue] through the nodes of
    [rest] that were not reached yet.  It returns the nodes reached and the
    nodes left over.  One node leaves the queue per unit of fuel, so
    [length queue + length rest] units are enough. *)
Fixpoint plain_bfs (fuel : nat) (queue rest : list coord)
  : list coord * list coord :=
  match fuel, queue with
  | S f, v :: q =>
      let next := filter (λ c, adjacent v c = true) rest in
      let rest' := filter (λ c, adjacent v c ≠ true) rest in
      let '(reached, others) := plain_bfs f (q ++ next) rest' in
      (v :: reached, others)
  | _, _ => (queue, rest)
  end.

(** [connected_components]: the first node not seen yet starts a search. *)
Fixpoint connected_components (fuel : nat) (nodes : list coord)
  : list (list coord) :=
  match fuel, nodes with
  | S f, v :: rest =>
      let '(reached, others) := plain_bfs (length nodes) [v] rest in
      reached :: connected_components f others
  | _, _ => []
  end.

Definition get_stone_groups (g : GoGame) (color : string)
  : list (list coord) :=
  let nodes := stones (size g) (board g) color in
  connected_components (length nodes) nodes.

(** ** [has_no_liberties] *)

Definition directions : list coord := [(-1, 0); (1, 0); (0, -1); (0, 1)].

Definition has_no_liberties (g : GoGame) (group : list coord) : bool :=
  forallb (λ c,
    forallb (λ d,
      let nx := c.1 + d.1 in
      let ny := c.2 + d.2 in
      if in_bounds (size g) nx ny
      then negb (getitem (board g) nx ny =? 0)
      else true) directions) group.

(** ** [capture_stones] *)

Definition set_board (g : GoGame) (b : Board) : GoGame :=
  mkGoGame (size g) b (black_turn g) (prisoners g) (history g) (prev_boards g).

Definition set_prisoners (g : GoGame) (p : Prisoners) : GoGame :=
  mkGoGame (size g) (board g) (black_turn g) p (history g) (prev_boards g).

Definition set_black_turn (g : GoGame) (t : bool) : GoGame :=
  mkGoGame (size g) (board g) t (prisoners g) (history g) (prev_boards g).

(** [for x, y in group: self.board[x, y] = 0] *)
Definition remove_group (b : Board) (group : list coord) : Board :=
  foldl (λ b c, setitem b c.1 c.2 0) b group.

(** One turn of the loop over the groups: the liberty test reads the board
    as the earlier turns left it. *)
Definition capture_group (self_color : string) (g : GoGame)
    (group : list coord) : GoGame :=
  if has_no_liberties g group then
    set_prisoners (set_board g (remove_group (board g) group))
      (<[self_color := count_of (prisoners g) self_color
                       + Z.of_nat (length group)]> (prisoners g))
  else g.

(** The colour names [capture_stones] computes from the turn flag. *)
Definition self_color (g : GoGame) : string :=
  if black_turn g then "black" else "white".

Definition other_color (g : GoGame) : string :=
  if black_turn g then "white" else "black".

Definition capture_stones (g : GoGame) (col row : Z) : GoGame :=
  foldl (capture_group (self_color g)) g (get_stone_groups g (other_color g)).

(** ** [is_ko_violation] *)

Definition is_ko_violation (g : GoGame) : bool :=
  if (2 <=? length (prev_boards g))%nat then
    match prev_boards g !! (length (prev_boards g) - 2)%nat with
    | Some b => array_equal (board g) b
    | None => false
    end
  else false.

(** ** [place_stone] *)

Definition snapshot (g : GoGame) : GoGame :=
  mkGoGame (size g) (board g) (black_turn g) (prisoners g)
    (history g ++ [(board g, prisoners g)])
    (prev_boards g ++ [board g]).

(** The engine once the stone is written, before captures. *)
Definition placed (g : GoGame) (col row : Z) : GoGame :=
  let g1 := snapshot g in
  set_board g1 (setitem (board g1) col row (if black_turn g1 then 1 else 2)).

(** The engine once captures are resolved, before the ko test. *)
Definition captured (g : GoGame) (col row : Z) : GoGame :=
  capture_stones (placed g col row) col row.

Definition place_stone (g : GoGame) (col row : Z) : bool * GoGame :=
  if negb (is_valid_move g col row) then (false, g)
  else
    let g3 := captured g col row in
    if is_ko_violation g3 then
      (false, set_board g3 (setitem (board g3) col row 0))
    else
      (true, set_black_turn g3 (negb (black_turn g3))).

(** ** [undo_move] *)

Definition undo_move (g : GoGame) : GoGame :=
  match last (history g) with
  | Some (b, p) =>
      mkGoGame (size g) b (negb (black_turn g)) p
        (removelast (history g)) (prev_boards g)
  | None => g
  end.

(** ** [calculate_score]

    The white score is a float, [prisoners['white'] + 6.5]; a count plus a
    half is exact on floats, and it is kept as a rational here.  Reading the
    two keys of the defaultdict creates the missing ones with value 0. *)

Definition komi : Q := 13 # 2.

Definition calculate_score (g : GoGame) : (Q * Q) * GoGame :=
  let black_score := count_of (prisoners g) "black" in
  let p1 := <["black"%string := black_score]> (prisoners g) in
  let white_score := (inject_Z (count_of p1 "white") + komi)%Q in
  let p2 := <["white"%string := count_of p1 "white"]> p1 in
  ((inject_Z black_score, white_score), set_prisoners g p2).

(** ** Running the engine *)

(** A sequence of [place_stone] calls; the results are collected in call
    order. *)
Fixpoint play (g : GoGame) (moves : list coord) : list bool * GoGame :=
  match moves with
  | [] => ([], g)
  | m :: ms =>
      let '(r, g') := place_stone g m.1 m.2 in
      let '(rs, g'') := play g' ms in
      (r :: rs, g'')
  end.

(** [n] calls of [undo_move]. *)
Fixpoint undo_moves (n : nat) (g : GoGame) : GoGame :=
  match n with
  | O => g
  | S k => undo_moves k (undo_move g)
  end.

(** ** Positions used in the examples *)

(** The ko position.  On a 5 x 5 board, after these eight moves (Black
    first) Black holds (1,0), (0,1), (1,2) and White holds (2,0), (3,1),
    (2,2), (1,1); the eighth move, White at (1,1), captured the black stone
    at (2,1). *)
Definition ko_moves : list coord :=
  [(1, 0); (2, 0); (0, 1); (3, 1); (1, 2); (2, 2); (2, 1); (1, 1)].

Definition ko_game : GoGame := (play (init 5) ko_moves).2.

(** Black holds (1,0) and (1,1), White holds (0,0) and (0,1): the white
    pair has one liberty left, at (0,2), and Black is to move. *)
Definition corner_moves : list coord := [(1, 0); (0, 0); (1, 1); (0, 1)].

Definition corner_game : GoGame := (play (init 5) corner_moves).2.

(** White holds (0,1) and (1,0), Black two stones far away: the corner
    (0,0) is an empty point with no liberty, and Black is to move. *)
Definition suicide_moves : list coord := [(4, 4); (0, 1); (4, 3); (1, 0)].

Definition suicide_game : GoGame := (play (init 5) suicide_moves).2.

(** ** Notions used in the statements *)

(** A board of the engine is a square array of side [n]. *)
Definition well_shaped (n : Z) (b : Board) : bool :=
  (length b =? Z.to_nat n)%nat
  && forallb (λ r : list Z, (length r =? Z.to_nat n)%nat) b.

(** The coordinates of a group all lie on the board. *)
Definition on_board (n : Z) (group : list coord) : Prop :=
  ∀ c, c ∈ group → in_bounds n c.1 c.2 = true.

(** The fields [undo_move] reads and writes. *)
Definition undo_view (g : GoGame)
  : Z * Board * bool * Prisoners * list (Board * Prisoners) :=
  (size g, board g, black_turn g, prisoners g, history g).

(** [linked nodes u v]: a walk from [u] to [v] along edges of the grid
    through members of [nodes]. *)
Inductive linked (nodes : list coord) : coord → coord → Prop :=
  | linked_here u : u ∈ nodes → linked nodes u u
  | linked_step u v w :
      linked nodes u v → w ∈ nodes → adjacent v w = true →
      linked nodes u w.

(** Every cell is empty, black or white. *)
Definition cells_ok (b : Board) : Prop :=
  ∀ x y, getitem b x y = 0 ∨ getitem b x y = 1 ∨ getitem b x y = 2.

(** What holds of the board holds of every board saved for undo. *)
Definition engine_ok (n : Z) (g : GoGame) : Prop :=
  size g = n
  ∧ (well_shaped n (board g) = true ∧ cells_ok (board g))
  ∧ Forall (λ s : Board * Prisoners,
              well_shaped n s.1 = true ∧ cells_ok s.1) (history g).

(** The states an engine built by [GoGame(n)] goes through under calls of
    its methods. *)
Inductive reachable (n : Z) : GoGame → Prop :=
  | reachable_init : reachable n (init n)
  | reachable_place_stone g col row :
      reachable n g → reachable n (place_stone g col row).2
  | reachable_undo_move g :
      reachable n g → reachable n (undo_move g)
  | reachable_calculate_score g :
      reachable n g → reachable n (calculate_score g).2.

(** The groups of a list that [has_no_liberties] finds without a liberty
    on the board of [g]. *)
Definition dead_groups (g : GoGame) (groups : list (list coord))
  : list (list coord) :=
  filter (λ h, has_no_liberties g h = true) groups.

(** No edge of the grid joins two different groups of the list. *)
Definition separated (groups : list (list coord)) : Prop :=
  ∀ h h' u v, h ∈ groups → h' ∈ groups → h ≠ h' →
    u ∈ h → v ∈ h' → adjacent u v = false.

(** The engine with another history and another log. *)
Definition with_logs (g : GoGame) (hist : list (Board * Prisoners))
    (log : list Board) : GoGame :=
  mkGoGame (size g) (board g) (black_turn g) (prisoners g) hist log.

(** The stones on the board and the prisoners taken, all together. *)
Definition stones_and_prisoners (g : GoGame) : Z :=
  Z.of_nat (length (stones (size g) (board g) "black"))
  + Z.of_nat (length (stones (size g) (board g) "white"))
  + count_of (prisoners g) "black"
  + count_of (prisoners g) "white".

(** The number of calls that returned true. *)
Definition accepted_calls (results : list bool) : Z :=
  Z.of_nat (length (filter (λ r, r = true) results)).

(** No prisoner count is negative. *)
Definition counts_nonneg (p : Prisoners) : Prop := ∀ c, 0 ≤ count_of p c.

(** The counts of the engine and of every snapshot are not negative, and
    the log is at least as long as the history. *)
Definition ledger_ok (g : GoGame) : Prop :=
  counts_nonneg (prisoners g)
  ∧ Forall (λ s : Board * Prisoners, counts_nonneg s.2) (history g)
  ∧ (length (history g) ≤ length (prev_boards g))%nat.

(** * Properties *)

(** ** Arrays *)

Lemma well_shaped_spec n b :
  well_shaped n b = true ↔
  length b = Z.to_nat n ∧ ∀ r : list Z, r ∈ b → length r = Z.to_nat n.
Proof.
  unfold well_shaped. rewrite andb_true_iff, Nat.eqb_eq, forallb_forall.
  split; intros [Hl Hr]; split; try done; intros r Hin.
  - apply Nat.eqb_eq, Hr. by apply list_elem_of_In.
  - apply Nat.eqb_eq, Hr. by apply list_elem_of_In.
Qed.

Lemma in_bounds_spec n x y :
  in_bounds n x y = true ↔ 0 ≤ x < n ∧ 0 ≤ y < n.
Proof.
  unfold in_bounds. rewrite !andb_true_iff, !Z.leb_le, !Z.ltb_lt. lia.
Qed.

Lemma well_shaped_zeros n : well_shaped n (zeros n) = true.
Proof.
  apply well_shaped_spec. unfold zeros. split.
  - by rewrite length_replicate.
  - intros r Hr. apply elem_of_replicate in Hr as [-> _].
    by rewrite length_replicate.
Qed.

Lemma well_shaped_setitem n b x y v :
  well_shaped n b = true → well_shaped n (setitem b x y v) = true.
Proof.
  rewrite !well_shaped_spec. intros [Hl Hr]. unfold setitem. split.
  - by rewrite length_alter.
  - intros r Hin. apply list_elem_of_lookup in Hin as [i Hi].
    destruct (decide (i = Z.to_nat x)) as [->|Hne].
    + rewrite list_lookup_alter_eq in Hi.
      destruct (b !! Z.to_nat x) as [r0|] eqn:E; simplify_eq/=.
      rewrite length_insert. apply Hr. by eapply list_elem_of_lookup_2.
    + rewrite list_lookup_alter_ne in Hi by done.
      apply Hr. by eapply list_elem_of_lookup_2.
Qed.

(** Reading back the cell that was written. *)
Lemma getitem_setitem_eq n b x y v :
  well_shaped n b = true → in_bounds n x y = true →
  getitem (setitem b x y v) x y = v.
Proof.
  rewrite well_shaped_spec, in_bounds_spec. intros [Hl Hr] [Hx Hy].
  unfold getitem, setitem.
  replace ((0 <=? x) && (0 <=? y)) with true
    by (symmetry; apply andb_true_iff; rewrite !Z.leb_le; lia).
  rewrite list_lookup_alter_eq.
  destruct (lookup_lt_is_Some_2 b (Z.to_nat x)) as [r Hrow]; [lia|].
  rewrite Hrow. simpl.
  rewrite list_lookup_insert_eq; [done|].
  rewrite (Hr r); [lia|]. by eapply list_elem_of_lookup_2.
Qed.

(** A write leaves every other cell as it was. *)
Lemma getitem_setitem_ne b x y v x' y' :
  0 ≤ x → 0 ≤ y → (x, y) ≠ (x', y') →
  getitem (setitem b x y v) x' y' = getitem b x' y'.
Proof.
  intros Hx Hy Hne. unfold getitem, setitem.
  destruct ((0 <=? x') && (0 <=? y')) eqn:E; [|done].
  apply andb_true_iff in E as [Hx' Hy']. apply Z.leb_le in Hx', Hy'.
  destruct (decide (Z.to_nat x = Z.to_nat x')) as [Heq|Hneq].
  - rewrite <- Heq, list_lookup_alter_eq.
    destruct (b !! Z.to_nat x) as [r|]; simpl; [|done].
    rewrite list_lookup_insert_ne; [done|].
    intros Hyy. apply Hne. f_equal; lia.
  - by rewrite list_lookup_alter_ne.
Qed.

(** ** The nodes of the grid *)

Lemma elem_of_all_spaces n x y :
  (x, y) ∈ all_spaces n ↔ 0 ≤ x < n ∧ 0 ≤ y < n.
Proof.
  unfold all_spaces. rewrite list_elem_of_bind. split.
  - intros (x' & Hin & Hx). apply list_elem_of_bind in Hin as (y' & Hin & Hy).
    apply list_elem_of_singleton in Hin. simplify_eq.
    apply elem_of_seqZ in Hx, Hy. lia.
  - intros [Hx Hy]. exists x. split; [|apply elem_of_seqZ; lia].
    apply list_elem_of_bind. exists y. split; [|apply elem_of_seqZ; lia].
    by apply list_elem_of_singleton.
Qed.

Lemma NoDup_all_spaces n : NoDup (all_spaces n).
Proof.
  unfold all_spaces. apply NoDup_bind; [| |apply NoDup_seqZ].
  - intros x1 x2 [a c] _ _ H1 H2.
    apply list_elem_of_bind in H1 as (y1 & H1 & _).
    apply list_elem_of_bind in H2 as (y2 & H2 & _).
    apply list_elem_of_singleton in H1, H2. congruence.
  - intros x _. apply NoDup_bind; [| |apply NoDup_seqZ].
    + intros y1 y2 [a c] _ _ H1 H2.
      apply list_elem_of_singleton in H1, H2. congruence.
    + intros y _. apply NoDup_singleton.
Qed.

Lemma color_code_nonzero color : color_code color ≠ 0.
Proof. unfold color_code. by case_bool_decide. Qed.

Lemma elem_of_stones n b color x y :
  (x, y) ∈ stones n b color ↔
  getitem b x y = color_code color ∧ 0 ≤ x < n ∧ 0 ≤ y < n.
Proof.
  unfold stones. rewrite list_elem_of_filter, elem_of_all_spaces. done.
Qed.

Lemma NoDup_stones n b color : NoDup (stones n b color).
Proof. apply NoDup_filter, NoDup_all_spaces. Qed.

(** ** Connected components *)

(** The search only sorts the nodes it is given into reached and left
    over: none is lost, none is invented, whatever the fuel. *)
Lemma plain_bfs_perm fuel queue rest reached others :
  plain_bfs fuel queue rest = (reached, others) →
  reached ++ others ≡ₚ queue ++ rest.
Proof.
  revert queue rest reached others.
  induction fuel as [|f IH]; intros queue rest reached others Hbfs.
  - simpl in Hbfs. by simplify_eq.
  - destruct queue as [|v q]; simpl in Hbfs; [by simplify_eq|].
    destruct (plain_bfs f _ _) as [r o] eqn:E. simplify_eq.
    apply IH in E. simpl. f_equiv. rewrite E, <- (assoc_L (++)).
    f_equiv. apply filter_app_complement.
Qed.

Lemma plain_bfs_start fuel v rest reached others :
  plain_bfs (S fuel) [v] rest = (reached, others) →
  ∃ tail, reached = v :: tail.
Proof.
  simpl. destruct (plain_bfs fuel _ _) as [r o]. intros; simplify_eq. eauto.
Qed.

(** The components list every node once. *)
Lemma connected_components_perm fuel nodes :
  (length nodes ≤ fuel)%nat →
  concat (connected_components fuel nodes) ≡ₚ nodes.
Proof.
  revert nodes. induction fuel as [|f IH]; intros nodes Hlen.
  - destruct nodes; [done|simpl in Hlen; lia].
  - destruct nodes as [|v rest]; [done|].
    cbn [connected_components].
    destruct (plain_bfs (length (v :: rest)) [v] rest) as [r o] eqn:E.
    pose proof (plain_bfs_perm _ _ _ _ _ E) as Hperm.
    apply plain_bfs_start in E as [tail ->].
    cbn [concat]. rewrite IH.
    + done.
    + apply Permutation_length in Hperm. simpl in Hperm, Hlen.
      rewrite !length_app in Hperm. simpl in Hperm. lia.
Qed.

Lemma get_stone_groups_perm g color :
  concat (get_stone_groups g color) ≡ₚ stones (size g) (board g) color.
Proof. unfold get_stone_groups. by apply connected_components_perm. Qed.

(** Every stone of the colour is in a group, every member of a group is a
    stone of the colour on the board, and no stone is listed twice. *)
Lemma get_stone_groups_NoDup g color :
  NoDup (concat (get_stone_groups g color)).
Proof. rewrite get_stone_groups_perm. apply NoDup_stones. Qed.

Lemma elem_of_get_stone_groups g color x y :
  (∃ group, group ∈ get_stone_groups g color ∧ (x, y) ∈ group) ↔
  getitem (board g) x y = color_code color
  ∧ 0 ≤ x < size g ∧ 0 ≤ y < size g.
Proof.
  rewrite <- elem_of_stones, <- get_stone_groups_perm.
  rewrite list_elem_of_In, in_concat.
  setoid_rewrite list_elem_of_In. naive_solver.
Qed.

(** ** Removing a group *)

Lemma well_shaped_remove_group n b group :
  well_shaped n b = true → well_shaped n (remove_group b group) = true.
Proof.
  revert b. unfold remove_group.
  induction group as [|c group IH]; intros b Hb; [done|].
  simpl. apply IH. by apply well_shaped_setitem.
Qed.

(** After the loop [board[x, y] = 0] over a group, the cells of the group
    are empty and every other cell is as before. *)
Lemma getitem_remove_group n b group x y :
  well_shaped n b = true → on_board n group →
  getitem (remove_group b group) x y =
    if decide ((x, y) ∈ group) then 0 else getitem b x y.
Proof.
  revert b. unfold remove_group.
  induction group as [|[cx cy] group IH]; intros b Hb Hon.
  - cbn [foldl]. rewrite decide_False; [done|]. by intros ?%elem_of_nil.
  - cbn [foldl fst snd]. rewrite IH.
    + assert (in_bounds n cx cy = true) as Hc
        by (apply (Hon (cx, cy)), list_elem_of_here).
      destruct (decide ((x, y) ∈ group)) as [Hin|Hnin].
      * rewrite decide_True; [done|by apply list_elem_of_further].
      * destruct (decide ((cx, cy) = (x, y))) as [Heq|Hne].
        -- simplify_eq. rewrite decide_True by apply list_elem_of_here.
           by eapply getitem_setitem_eq.
        -- rewrite decide_False.
           ++ apply in_bounds_spec in Hc.
              apply getitem_setitem_ne; [lia|lia|done].
           ++ intros Hin. apply elem_of_cons in Hin as [?|?]; congruence.
    + by apply well_shaped_setitem.
    + intros c Hin. by apply Hon, list_elem_of_further.
Qed.

(** The stones of a colour that are left once a group is taken off. *)
Lemma stones_remove_group n b group color :
  well_shaped n b = true → on_board n group →
  stones n (remove_group b group) color =
  filter (λ c, c ∉ group) (stones n b color).
Proof.
  intros Hb Hon. unfold stones. rewrite list_filter_filter.
  apply list_filter_iff. intros [x y]. simpl.
  rewrite (getitem_remove_group n) by done.
  pose proof (color_code_nonzero color).
  case_decide; [split; [congruence|tauto]|tauto].
Qed.

Lemma length_filter_not_elem_of (l group : list coord) :
  NoDup l → NoDup group → (∀ c, c ∈ group → c ∈ l) →
  (length l = length group + length (filter (λ c, c ∉ group) l))%nat.
Proof.
  intros Hl Hg Hsub.
  rewrite <- (filter_app_complement (λ c : coord, c ∉ group) l) at 1.
  rewrite length_app.
  assert (filter (λ c : coord, ¬ (c ∉ group)) l ≡ₚ group) as ->; [|lia].
  apply NoDup_Permutation; [by apply NoDup_filter|done|].
  intros c. rewrite list_elem_of_filter. split.
  - intros [Hc _]. by destruct (decide (c ∈ group)).
  - intros Hc. split; [tauto|by apply Hsub].
Qed.

(** ** The capture loop *)

Section capture_loop.
Variable mover : string.

Let loop := foldl (capture_group mover).

Lemma capture_group_frame g group :
  size (capture_group mover g group) = size g
  ∧ black_turn (capture_group mover g group) = black_turn g
  ∧ history (capture_group mover g group) = history g
  ∧ prev_boards (capture_group mover g group) = prev_boards g
  ∧ ∀ k, k ≠ mover →
      prisoners (capture_group mover g group) !! k = prisoners g !! k.
Proof.
  unfold capture_group. destruct (has_no_liberties g group); [|done].
  simpl. repeat split. intros k Hk. by rewrite lookup_insert_ne.
Qed.

(** The loop touches the board and the prisoner entry of the mover. *)
Lemma capture_loop_frame groups g :
  size (loop g groups) = size g
  ∧ black_turn (loop g groups) = black_turn g
  ∧ history (loop g groups) = history g
  ∧ prev_boards (loop g groups) = prev_boards g
  ∧ ∀ k, k ≠ mover →
      prisoners (loop g groups) !! k = prisoners g !! k.
Proof.
  revert g. induction groups as [|group groups IH]; intros g; [done|].
  subst loop. cbn [foldl].
  destruct (IH (capture_group mover g group)) as (-> & -> & -> & -> & Hp).
  destruct (capture_group_frame g group) as (-> & -> & -> & -> & Hq).
  repeat split. intros k Hk. by rewrite Hp, Hq.
Qed.

(** One turn keeps the array square, and a cell either keeps its value
    or is a cell of the group and is empty. *)
Lemma capture_group_cells g group :
  well_shaped (size g) (board g) = true →
  on_board (size g) group →
  well_shaped (size g) (board (capture_group mover g group)) = true
  ∧ ∀ x y,
      getitem (board (capture_group mover g group)) x y
        = getitem (board g) x y
      ∨ (getitem (board (capture_group mover g group)) x y = 0
         ∧ (x, y) ∈ group).
Proof.
  intros Hb Hon. unfold capture_group.
  destruct (has_no_liberties g group); cbn [board set_prisoners set_board].
  - split; [by apply well_shaped_remove_group|]. intros x y.
    rewrite (getitem_remove_group (size g)) by done.
    case_decide; [by right|by left].
  - split; [done|]. by left.
Qed.

Lemma capture_loop_cells groups g :
  well_shaped (size g) (board g) = true →
  on_board (size g) (concat groups) →
  well_shaped (size g) (board (loop g groups)) = true
  ∧ ∀ x y,
      getitem (board (loop g groups)) x y = getitem (board g) x y
      ∨ (getitem (board (loop g groups)) x y = 0
         ∧ (x, y) ∈ concat groups).
Proof.
  revert g. induction groups as [|group groups IH]; intros g Hb Hon.
  { split; [done|by left]. }
  subst loop. cbn [foldl concat] in *.
  assert (on_board (size g) group) as Hg
    by (intros c Hc; apply Hon, elem_of_app; by left).
  assert (on_board (size g) (concat groups)) as Hgs
    by (intros c Hc; apply Hon, elem_of_app; by right).
  destruct (capture_group_cells g group Hb Hg) as [Hw1 Hc1].
  destruct (capture_group_frame g group) as (Hsz & _).
  destruct (IH (capture_group mover g group)) as [Hw Hcells].
  { by rewrite Hsz. }
  { by rewrite Hsz. }
  rewrite Hsz in Hw. split; [done|]. intros x y.
  destruct (Hcells x y) as [->|[-> Hin]].
  - destruct (Hc1 x y) as [->|[-> Hin]]; [by left|].
    right. split; [done|]. apply elem_of_app. by left.
  - right. split; [done|]. apply elem_of_app. by right.
Qed.

(** Stones counted as prisoners are stones taken off the board: in one
    turn the sum of the mover's prisoner count and the number of stones
    of the colour [other] on the board does not change. *)
Lemma capture_group_count other g group :
  well_shaped (size g) (board g) = true →
  NoDup group →
  (∀ c, c ∈ group → c ∈ stones (size g) (board g) other) →
  count_of (prisoners (capture_group mover g group)) mover
    + Z.of_nat (length (stones (size g)
                 (board (capture_group mover g group)) other))
  = count_of (prisoners g) mover
    + Z.of_nat (length (stones (size g) (board g) other))
  ∧ ∀ c, c ∈ stones (size g) (board g) other → c ∉ group →
      c ∈ stones (size g) (board (capture_group mover g group)) other.
Proof.
  intros Hb Hnd Hin.
  assert (on_board (size g) group) as Hg.
  { intros [x y] Hc. apply in_bounds_spec. by eapply elem_of_stones, Hin. }
  unfold capture_group.
  destruct (has_no_liberties g group);
    cbn [board prisoners set_prisoners set_board]; [|done].
  rewrite (stones_remove_group (size g)) by done. split.
  - unfold count_of at 1. rewrite lookup_insert_eq. cbn [default].
    rewrite (length_filter_not_elem_of
               (stones (size g) (board g) other) group);
      [unfold id; lia|apply NoDup_stones|done|done].
  - intros c Hc Hnin. by apply list_elem_of_filter.
Qed.

Lemma capture_loop_count other groups g :
  well_shaped (size g) (board g) = true →
  NoDup (concat groups) →
  (∀ c, c ∈ concat groups → c ∈ stones (size g) (board g) other) →
  count_of (prisoners (loop g groups)) mover
    + Z.of_nat (length (stones (size g) (board (loop g groups)) other))
  = count_of (prisoners g) mover
    + Z.of_nat (length (stones (size g) (board g) other)).
Proof.
  revert g. induction groups as [|group groups IH]; intros g Hb Hnd Hin.
  { done. }
  subst loop. cbn [foldl concat] in *.
  apply NoDup_app in Hnd as (Hnd1 & Hdisj & Hnd2).
  assert (∀ c, c ∈ group → c ∈ stones (size g) (board g) other) as Hin1
    by (intros c Hc; apply Hin, elem_of_app; by left).
  destruct (capture_group_count other g group Hb Hnd1 Hin1) as [Heq Hkeep].
  destruct (capture_group_frame g group) as (Hsz & _).
  assert (on_board (size g) group) as Hg.
  { intros [x y] Hc. apply in_bounds_spec. by eapply elem_of_stones, Hin1. }
  destruct (capture_group_cells g group Hb Hg) as [Hw1 _].
  rewrite <- Heq, <- Hsz. apply IH.
  - by rewrite Hsz.
  - done.
  - intros c Hc. rewrite Hsz. apply Hkeep.
    + apply Hin, elem_of_app. by right.
    + intros Hc'. by apply (Hdisj c).
Qed.
End capture_loop.

(** ** The three phases of [place_stone] *)

Lemma captured_frame g col row :
  size (captured g col row) = size g
  ∧ black_turn (captured g col row) = black_turn g
  ∧ history (captured g col row) = history g ++ [(board g, prisoners g)]
  ∧ prev_boards (captured g col row) = prev_boards g ++ [board g].
Proof.
  unfold captured, capture_stones.
  destruct (capture_loop_frame (self_color (placed g col row))
              (get_stone_groups (placed g col row)
                 (other_color (placed g col row)))
              (placed g col row)) as (-> & -> & -> & -> & _).
  done.
Qed.

Lemma is_valid_move_spec g col row :
  is_valid_move g col row = true ↔
  (0 ≤ col < size g ∧ 0 ≤ row < size g) ∧ getitem (board g) col row = 0.
Proof.
  unfold is_valid_move.
  destruct (col <? 0) eqn:E1; [apply Z.ltb_lt in E1; split; [done|lia]|].
  destruct (col >=? size g) eqn:E2;
    [apply Z.geb_le in E2; split; [done|lia]|].
  destruct (row <? 0) eqn:E3; [apply Z.ltb_lt in E3; split; [done|lia]|].
  destruct (row >=? size g) eqn:E4;
    [apply Z.geb_le in E4; split; [done|lia]|].
  apply Z.ltb_ge in E1, E3. rewrite Z.geb_leb in E2, E4.
  apply Z.leb_gt in E2, E4. cbn [orb].
  destruct (getitem (board g) col row =? 0) eqn:E5; cbn [negb].
  - apply Z.eqb_eq in E5. split; [intros _; lia|done].
  - apply Z.eqb_neq in E5. split; [done|]. intros [_ ?]. done.
Qed.

Lemma place_stone_invalid g col row :
  is_valid_move g col row = false → place_stone g col row = (false, g).
Proof. intros H. unfold place_stone. by rewrite H. Qed.

Lemma place_stone_valid g col row :
  is_valid_move g col row = true →
  place_stone g col row =
    if is_ko_violation (captured g col row)
    then (false, set_board (captured g col row)
                   (setitem (board (captured g col row)) col row 0))
    else (true, set_black_turn (captured g col row)
                  (negb (black_turn (captured g col row)))).
Proof. intros H. unfold place_stone. by rewrite H. Qed.

(** A valid call is refused exactly when the ko test fires. *)
Lemma place_stone_false_ko g col row g' :
  is_valid_move g col row = true →
  place_stone g col row = (false, g') →
  is_ko_violation (captured g col row) = true
  ∧ g' = set_board (captured g col row)
           (setitem (board (captured g col row)) col row 0).
Proof.
  intros Hv. rewrite place_stone_valid by done.
  destruct (is_ko_violation _); intros; by simplify_eq.
Qed.

Lemma place_stone_true g col row g' :
  place_stone g col row = (true, g') →
  is_valid_move g col row = true
  ∧ is_ko_violation (captured g col row) = false
  ∧ g' = set_black_turn (captured g col row) (negb (black_turn g)).
Proof.
  destruct (is_valid_move g col row) eqn:Hv.
  - rewrite place_stone_valid by done.
    destruct (captured_frame g col row) as (_ & -> & _).
    destruct (is_ko_violation _); intros; by simplify_eq.
  - rewrite place_stone_invalid by done. intros; simplify_eq.
Qed.

(** The ko test compares the board with the entry before the last one of
    the log. *)
Lemma is_ko_violation_spec g :
  is_ko_violation g = true ↔
  ∃ older newest, prev_boards g = older ++ [board g; newest].
Proof.
  unfold is_ko_violation, array_equal. split.
  - destruct (2 <=? length (prev_boards g))%nat eqn:Hlen; [|done].
    apply Nat.leb_le in Hlen.
    destruct (prev_boards g !! (length (prev_boards g) - 2)%nat)
      as [b|] eqn:Hb; [|done].
    intros Heq. apply bool_decide_eq_true in Heq. subst b.
    destruct (prev_boards g) as [|b0 l] using rev_ind; [simpl in Hlen; lia|].
    clear IHl. destruct l as [|b1 l _] using rev_ind.
    { simpl in Hlen. lia. }
    exists l, b0. rewrite <- (assoc_L (++)). simpl. f_equal.
    rewrite !length_app in Hb. simpl in Hb.
    rewrite <- (assoc_L (++)) in Hb. simpl in Hb.
    rewrite lookup_app_r in Hb by lia.
    replace (length l + 1 + 1 - 2 - length l)%nat with 0%nat in Hb by lia.
    simpl in Hb. by simplify_eq.
  - intros (older & newest & ->).
    rewrite length_app. cbn [length].
    replace (2 <=? length older + 2)%nat with true
      by (symmetry; apply Nat.leb_le; lia).
    rewrite lookup_app_r by lia.
    replace (length older + 2 - 2 - length older)%nat with 0%nat by lia.
    simpl. by apply bool_decide_eq_true.
Qed.

Lemma color_code_self g :
  color_code (self_color g) = if black_turn g then 1 else 2.
Proof. unfold self_color. by destruct (black_turn g). Qed.

Lemma color_code_other g :
  color_code (other_color g) = if black_turn g then 2 else 1.
Proof. unfold other_color. by destruct (black_turn g). Qed.

Lemma color_code_self_other g :
  color_code (self_color g) ≠ color_code (other_color g).
Proof.
  rewrite color_code_self, color_code_other. by destruct (black_turn g).
Qed.

Lemma placed_frame g col row :
  size (placed g col row) = size g
  ∧ black_turn (placed g col row) = black_turn g
  ∧ prisoners (placed g col row) = prisoners g
  ∧ self_color (placed g col row) = self_color g
  ∧ other_color (placed g col row) = other_color g.
Proof. done. Qed.

Lemma well_shaped_placed g col row :
  well_shaped (size g) (board g) = true →
  well_shaped (size g) (board (placed g col row)) = true.
Proof. intros Hb. by apply well_shaped_setitem. Qed.

(** The write of the stone: the target cell takes the mover's code, every
    other cell keeps its value. *)
Lemma placed_cells g col row :
  well_shaped (size g) (board g) = true →
  in_bounds (size g) col row = true →
  getitem (board (placed g col row)) col row = color_code (self_color g)
  ∧ ∀ x y, (x, y) ≠ (col, row) →
      getitem (board (placed g col row)) x y = getitem (board g) x y.
Proof.
  intros Hb Hin. unfold placed. cbn [board set_board snapshot black_turn].
  split.
  - rewrite color_code_self. by apply (getitem_setitem_eq (size g)).
  - intros x y Hne. apply in_bounds_spec in Hin.
    apply getitem_setitem_ne; [lia|lia|congruence].
Qed.

Lemma groups_on_board g color :
  on_board (size g) (concat (get_stone_groups g color)).
Proof.
  intros [x y] Hc. rewrite get_stone_groups_perm in Hc.
  apply elem_of_stones in Hc. apply in_bounds_spec. simpl. tauto.
Qed.

(** Capture resolution: a cell keeps the value it had once the stone was
    written, or it held a stone of the opponent and is now empty. *)
Lemma captured_cells g col row :
  well_shaped (size g) (board g) = true →
  well_shaped (size g) (board (captured g col row)) = true
  ∧ ∀ x y,
      getitem (board (captured g col row)) x y
        = getitem (board (placed g col row)) x y
      ∨ (getitem (board (captured g col row)) x y = 0
         ∧ getitem (board (placed g col row)) x y
             = color_code (other_color g)).
Proof.
  intros Hb. unfold captured, capture_stones.
  destruct (capture_loop_cells (self_color (placed g col row))
              (get_stone_groups (placed g col row)
                 (other_color (placed g col row)))
              (placed g col row)) as [Hw Hcells].
  - by apply (well_shaped_placed g).
  - apply groups_on_board.
  - split; [done|]. intros x y.
    destruct (Hcells x y) as [->|[-> Hin]]; [by left|right].
    split; [done|]. rewrite get_stone_groups_perm in Hin.
    by apply elem_of_stones in Hin as [? _].
Qed.

(** The prisoner count of the opponent is not touched by a capture. *)
Lemma captured_prisoners_other g col row :
  count_of (prisoners (captured g col row)) (other_color g)
  = count_of (prisoners g) (other_color g).
Proof.
  unfold captured, capture_stones, count_of.
  destruct (capture_loop_frame (self_color (placed g col row))
              (get_stone_groups (placed g col row)
                 (other_color (placed g col row)))
              (placed g col row)) as (_ & _ & _ & _ & Hp).
  rewrite Hp; [done|].
  unfold self_color, other_color. simpl. by destruct (black_turn g).
Qed.

(** Placing a stone on an empty cell does not change the opponent's
    stones. *)
Lemma stones_placed_other g col row :
  well_shaped (size g) (board g) = true →
  is_valid_move g col row = true →
  stones (size g) (board (placed g col row)) (other_color g)
  = stones (size g) (board g) (other_color g).
Proof.
  intros Hb Hv. apply is_valid_move_spec in Hv as [Hin Hempty].
  assert (in_bounds (size g) col row = true) as Hin'
    by by apply in_bounds_spec.
  destruct (placed_cells g col row Hb Hin') as [Hcell Hrest].
  unfold stones. apply list_filter_iff. intros [x y]. cbn [fst snd].
  destruct (decide ((x, y) = (col, row))) as [Heq|Hne].
  - injection Heq as -> ->. rewrite Hcell, Hempty.
    pose proof (color_code_self_other g).
    pose proof (color_code_nonzero (other_color g)). split; congruence.
  - by rewrite Hrest.
Qed.

(** Taking the rejected stone back off does not change the opponent's
    stones either. *)
Lemma stones_reverted_other g col row :
  well_shaped (size g) (board g) = true →
  is_valid_move g col row = true →
  stones (size g) (setitem (board (captured g col row)) col row 0)
    (other_color g)
  = stones (size g) (board (captured g col row)) (other_color g).
Proof.
  intros Hb Hv. apply is_valid_move_spec in Hv as [Hin Hempty].
  assert (in_bounds (size g) col row = true) as Hin'
    by by apply in_bounds_spec.
  destruct (placed_cells g col row Hb Hin') as [Hcell _].
  destruct (captured_cells g col row Hb) as [Hw Hcells].
  unfold stones. apply list_filter_iff. intros [x y]. cbn [fst snd].
  pose proof (color_code_self_other g).
  pose proof (color_code_nonzero (other_color g)).
  destruct (decide ((x, y) = (col, row))) as [Heq|Hne].
  - injection Heq as -> ->. rewrite (getitem_setitem_eq (size g)) by done.
    destruct (Hcells col row) as [Hsame|[Hz Ho]]; split; congruence.
  - rewrite getitem_setitem_ne; [done|lia|lia|congruence].
Qed.

(** ** Liberties *)

(** The answer true, spelled out over the cells. *)
Lemma has_no_liberties_true (g : GoGame) (group : list coord) :
  has_no_liberties g group = true ↔
  ∀ x y, (x, y) ∈ group →
    ∀ nx ny,
      (nx = x - 1 ∧ ny = y) ∨ (nx = x + 1 ∧ ny = y)
      ∨ (nx = x ∧ ny = y - 1) ∨ (nx = x ∧ ny = y + 1) →
      in_bounds (size g) nx ny = true →
      getitem (board g) nx ny ≠ 0.
Proof.
  unfold has_no_liberties. rewrite forallb_forall. split.
  - intros Hall x y Hin nx ny Hn Hb.
    apply list_elem_of_In, Hall in Hin. rewrite forallb_forall in Hin.
    cbn [fst snd] in Hin.
    assert (∃ d, In d directions ∧ nx = x + d.1 ∧ ny = y + d.2)
      as (d & Hd & -> & ->).
    { unfold directions.
      destruct Hn as [[-> ->]|[[-> ->]|[[-> ->]|[-> ->]]]];
        [exists (-1, 0)|exists (1, 0)|exists (0, -1)|exists (0, 1)];
        simpl; (split; [tauto|lia]). }
    apply Hin in Hd. rewrite Hb in Hd.
    apply negb_true_iff, Z.eqb_neq in Hd. done.
  - intros Hall [x y] Hin. apply list_elem_of_In in Hin.
    apply forallb_forall. intros [dx dy] Hd. cbn [fst snd].
    destruct (in_bounds (size g) (x + dx) (y + dy)) eqn:Hb; [|done].
    apply negb_true_iff, Z.eqb_neq. apply (Hall x y Hin); [|done].
    unfold directions in Hd. simpl in Hd.
    destruct Hd as [Hd|[Hd|[Hd|[Hd|[]]]]]; simplify_eq; lia.
Qed.

Lemma forallb_false_elem {A} (f : A → bool) (l : list A) :
  forallb f l = false → ∃ a, a ∈ l ∧ f a = false.
Proof.
  induction l as [|a l IH]; [done|]. cbn [forallb].
  intros [Ha|Hl]%andb_false_iff.
  - exists a. split; [apply list_elem_of_here|done].
  - destruct (IH Hl) as (a' & Hin & Ha'). exists a'.
    split; [by apply list_elem_of_further|done].
Qed.

(** C5.  [has_no_liberties] answers true exactly when every neighbour, in the
    four directions, of every coordinate of the group that lies on the board
    holds a stone; it answers false exactly when some coordinate of the group
    has an empty neighbour on the board.  A neighbour off the board is
    skipped: it is no liberty, and it does not stand in the way of the
    answer true. *)
Theorem has_no_liberties_spec (g : GoGame) (group : list coord) :
  (has_no_liberties g group = true ↔
   ∀ x y, (x, y) ∈ group →
     ∀ nx ny,
       (nx = x - 1 ∧ ny = y) ∨ (nx = x + 1 ∧ ny = y)
       ∨ (nx = x ∧ ny = y - 1) ∨ (nx = x ∧ ny = y + 1) →
       in_bounds (size g) nx ny = true →
       getitem (board g) nx ny ≠ 0)
  ∧ (has_no_liberties g group = false ↔
     ∃ x y nx ny,
       (x, y) ∈ group
       ∧ ((nx = x - 1 ∧ ny = y) ∨ (nx = x + 1 ∧ ny = y)
          ∨ (nx = x ∧ ny = y - 1) ∨ (nx = x ∧ ny = y + 1))
       ∧ in_bounds (size g) nx ny = true
       ∧ getitem (board g) nx ny = 0).
Proof.
  split; [apply has_no_liberties_true|]. split.
  - unfold has_no_liberties. intros Hf.
    apply forallb_false_elem in Hf as ([x y] & Hin & Hf).
    apply forallb_false_elem in Hf as ([dx dy] & Hd & Hf).
    cbn [fst snd] in Hf.
    destruct (in_bounds (size g) (x + dx) (y + dy)) eqn:Hb; [|done].
    apply negb_false_iff, Z.eqb_eq in Hf.
    exists x, y, (x + dx), (y + dy). repeat split; try done.
    unfold directions in Hd.
    repeat (apply elem_of_cons in Hd as [Hd|Hd]; [simplify_eq; lia|]).
    by apply elem_of_nil in Hd.
  - intros (x & y & nx & ny & Hin & Hn & Hb & Hz).
    apply not_true_is_false. intros Hno.
    by apply (proj1 (has_no_liberties_true g group) Hno x y Hin nx ny Hn Hb).
Qed.

(** Emptying cells never takes a liberty away. *)
Lemma has_no_liberties_thinner g g' group :
  size g' = size g →
  (∀ x y, getitem (board g') x y = getitem (board g) x y
          ∨ getitem (board g') x y = 0) →
  has_no_liberties g group = false → has_no_liberties g' group = false.
Proof.
  intros Hsz Hthin Hlib. apply not_true_is_false. intros Hno.
  apply not_true_iff_false in Hlib. apply Hlib.
  apply has_no_liberties_true. intros x y Hin nx ny Hn Hb.
  rewrite <- Hsz in Hb.
  pose proof (proj1 (has_no_liberties_true g' group) Hno x y Hin nx ny Hn Hb).
  destruct (Hthin nx ny); congruence.
Qed.

(** Groups with a liberty are passed over by the capture loop. *)
Lemma capture_loop_skip mover groups g :
  (∀ h, h ∈ groups → has_no_liberties g h = false) →
  foldl (capture_group mover) g groups = g.
Proof.
  induction groups as [|h groups IH]; intros Hall; [done|].
  cbn [foldl]. unfold capture_group at 2.
  rewrite (Hall h) by apply list_elem_of_here.
  apply IH. intros h' Hh'. by apply Hall, list_elem_of_further.
Qed.

(** ** Captures *)

(** When one group of the opponent is the only one left without a liberty,
    capture resolution takes exactly that group off and credits its size. *)
Lemma captured_single_group g col row pre group post :
  well_shaped (size g) (board g) = true →
  get_stone_groups (placed g col row) (other_color g) = pre ++ group :: post →
  has_no_liberties (placed g col row) group = true →
  (∀ h, h ∈ pre ++ post → has_no_liberties (placed g col row) h = false) →
  captured g col row =
    set_prisoners
      (set_board (placed g col row)
         (remove_group (board (placed g col row)) group))
      (<[self_color g := count_of (prisoners g) (self_color g)
                         + Z.of_nat (length group)]> (prisoners g))
  ∧ NoDup group ∧ on_board (size g) group.
Proof.
  intros Hb Hgroups Hgroup Hrest.
  pose proof (get_stone_groups_NoDup (placed g col row) (other_color g))
    as Hnd.
  pose proof (groups_on_board (placed g col row) (other_color g)) as Hon.
  rewrite Hgroups, concat_app in Hnd, Hon. cbn [concat] in Hnd, Hon.
  apply NoDup_app in Hnd as (_ & _ & Hnd).
  apply NoDup_app in Hnd as (Hnd & _ & _).
  assert (on_board (size g) group) as Hong.
  { intros c Hc. apply Hon. rewrite !elem_of_app. tauto. }
  split; [|done].
  unfold captured, capture_stones.
  destruct (placed_frame g col row) as (_ & _ & _ & -> & ->).
  rewrite Hgroups, foldl_app. cbn [foldl].
  rewrite (capture_loop_skip _ pre)
    by (intros h Hh; apply Hrest, elem_of_app; by left).
  unfold capture_group at 2. rewrite Hgroup.
  apply capture_loop_skip. intros h Hh.
  apply (has_no_liberties_thinner (placed g col row)); [done| |].
  - intros x y. cbn [board set_prisoners set_board].
    rewrite (getitem_remove_group (size g));
      [|by apply (well_shaped_placed g)|done].
    case_decide; [by right|by left].
  - apply Hrest, elem_of_app. by right.
Qed.

(** C4.  Suppose the stone just written leaves exactly one group of the
    opponent without a liberty, of K cells, and the call succeeds.  Then the
    mover's prisoner count grows by K, the K cells (distinct, and holding
    opponent stones until then) are empty, and every other cell is as it was
    once the stone was written. *)
Theorem capture_exactly_one_group g col row pre group post g' :
  well_shaped (size g) (board g) = true →
  get_stone_groups (placed g col row) (other_color g) = pre ++ group :: post →
  has_no_liberties (placed g col row) group = true →
  (∀ h, h ∈ pre ++ post → has_no_liberties (placed g col row) h = false) →
  place_stone g col row = (true, g') →
  NoDup group
  ∧ count_of (prisoners g') (self_color g)
    = count_of (prisoners g) (self_color g) + Z.of_nat (length group)
  ∧ (∀ x y, (x, y) ∈ group →
       getitem (board (placed g col row)) x y = color_code (other_color g)
       ∧ getitem (board g') x y = 0)
  ∧ (∀ x y, (x, y) ∉ group →
       getitem (board g') x y = getitem (board (placed g col row)) x y).
Proof.
  intros Hb Hgroups Hgroup Hrest Hplace.
  destruct (captured_single_group g col row pre group post)
    as (Hcap & Hnd & Hon); [done..|].
  apply place_stone_true in Hplace as (_ & _ & ->). rewrite Hcap.
  cbn [board prisoners set_black_turn set_prisoners set_board].
  split; [done|]. split.
  { unfold count_of at 1. by rewrite lookup_insert_eq. }
  split.
  - intros x y Hin. split.
    + assert ((x, y) ∈ concat (get_stone_groups (placed g col row)
                                 (other_color g))) as Hc.
      { rewrite Hgroups, concat_app. cbn [concat]. rewrite !elem_of_app.
        tauto. }
      rewrite get_stone_groups_perm in Hc.
      by apply elem_of_stones in Hc as [? _].
    + rewrite (getitem_remove_group (size g));
        [|by apply (well_shaped_placed g)|done].
      by rewrite decide_True.
  - intros x y Hnin.
    rewrite (getitem_remove_group (size g));
      [|by apply (well_shaped_placed g)|done].
    by rewrite decide_False.
Qed.

(** ** Self-capture *)

(** The capture loop leaves the stones of the mover alone. *)
Lemma captured_keeps_own_stones g col row x y :
  well_shaped (size g) (board g) = true →
  getitem (board (placed g col row)) x y = color_code (self_color g) →
  getitem (board (captured g col row)) x y = color_code (self_color g).
Proof.
  intros Hb Hown. destruct (captured_cells g col row Hb) as [_ Hcells].
  destruct (Hcells x y) as [->|[_ Hother]]; [done|].
  pose proof (color_code_self_other g). congruence.
Qed.

(** C6.  A move on an empty point of the board that meets no ko conflict is
    accepted, whatever the liberties of the new stone: the call returns
    true, the new stone is on the board after it, and every stone of the
    mover that was on the board once the stone was written is still there:
    nothing tests for, or removes, a group of the mover. *)
Theorem self_capture_permitted g col row :
  well_shaped (size g) (board g) = true →
  is_valid_move g col row = true →
  is_ko_violation (captured g col row) = false →
  (place_stone g col row).1 = true
  ∧ getitem (board (place_stone g col row).2) col row
    = color_code (self_color g)
  ∧ ∀ x y,
      getitem (board (placed g col row)) x y = color_code (self_color g) →
      getitem (board (place_stone g col row).2) x y
      = color_code (self_color g).
Proof.
  intros Hb Hv Hko. rewrite place_stone_valid, Hko by done.
  cbn [fst snd board set_black_turn]. split; [done|].
  assert (in_bounds (size g) col row = true) as Hin.
  { apply is_valid_move_spec in Hv as [? _]. by apply in_bounds_spec. }
  split.
  - apply captured_keeps_own_stones; [done|].
    by apply placed_cells.
  - intros x y. by apply captured_keeps_own_stones.
Qed.

(** ** Rejected and accepted calls *)

Lemma play_invalid_repeat g col row n :
  is_valid_move g col row = false →
  play g (replicate n (col, row)) = (replicate n false, g).
Proof.
  intros Hv. induction n as [|n IH]; [done|].
  cbn [replicate play fst snd]. rewrite place_stone_invalid by done.
  by rewrite IH.
Qed.

(** C8.  The turn flag after a call is the flipped flag when the call
    returned true and the old flag when it returned false.  A call is invalid
    exactly when the point is off the board or occupied; such a call returns
    false and leaves the whole engine as it was, so any number of repeats all
    return false and change nothing. *)
Theorem turn_flips_iff_accepted g col row :
  black_turn (place_stone g col row).2
    = (if (place_stone g col row).1 then negb (black_turn g)
       else black_turn g)
  ∧ (is_valid_move g col row = false ↔
       ¬ (0 ≤ col < size g ∧ 0 ≤ row < size g)
       ∨ getitem (board g) col row ≠ 0)
  ∧ (is_valid_move g col row = false →
       place_stone g col row = (false, g)
       ∧ ∀ n, play g (replicate n (col, row)) = (replicate n false, g)).
Proof.
  split; [|split].
  - destruct (is_valid_move g col row) eqn:Hv.
    + rewrite place_stone_valid by done.
      destruct (captured_frame g col row) as (_ & Ht & _).
      destruct (is_ko_violation _); cbn; by rewrite Ht.
    + by rewrite place_stone_invalid.
  - rewrite <- not_true_iff_false, is_valid_move_spec.
    destruct (decide (getitem (board g) col row = 0)); tauto.
  - intros Hv. split; [by apply place_stone_invalid|].
    intros n. by apply play_invalid_repeat.
Qed.

(** C2.  For a valid move, the ko test fires exactly when the board, once
    the stone is written and captures are resolved, is the entry before the
    last one of the previous-boards log (the last one being the board pushed
    for this attempt), and the call returns false exactly then.  In that
    case the result differs from the engine after capture resolution in one
    cell only, the one just written, which is empty again: the cells emptied
    by the capture stay empty, the turn flag is the old one, and the snapshot
    pushed for this attempt is still the last entry of the history. *)
Theorem ko_violation_partial_revert g col row :
  well_shaped (size g) (board g) = true →
  is_valid_move g col row = true →
  (is_ko_violation (captured g col row) = true ↔
     ∃ older, prev_boards g ++ [board g]
              = older ++ [board (captured g col row); board g])
  ∧ ((place_stone g col row).1 = false ↔
       is_ko_violation (captured g col row) = true)
  ∧ (is_ko_violation (captured g col row) = true →
       board (place_stone g col row).2
         = setitem (board (captured g col row)) col row 0
       ∧ getitem (board (place_stone g col row).2) col row = 0
       ∧ (∀ x y, (x, y) ≠ (col, row) →
            getitem (board (place_stone g col row).2) x y
            = getitem (board (captured g col row)) x y)
       ∧ (∀ x y, getitem (board (placed g col row)) x y
                   = color_code (other_color g) →
                 getitem (board (captured g col row)) x y = 0 →
                 getitem (board (place_stone g col row).2) x y = 0)
       ∧ black_turn (place_stone g col row).2 = black_turn g
       ∧ prisoners (place_stone g col row).2
         = prisoners (captured g col row)
       ∧ history (place_stone g col row).2
         = history g ++ [(board g, prisoners g)]
       ∧ prev_boards (place_stone g col row).2
         = prev_boards g ++ [board g]).
Proof.
  intros Hb Hv.
  destruct (captured_frame g col row) as (Hsz & Ht & Hh & Hp).
  assert (0 ≤ col < size g ∧ 0 ≤ row < size g) as Hin
    by (by apply is_valid_move_spec in Hv as [? _]).
  split; [|split].
  - rewrite is_ko_violation_spec, Hp. split.
    + intros (older & newest & Heq). exists older.
      rewrite Heq. do 2 f_equal.
      change (older ++ [board (captured g col row); newest])
        with (older ++ [board (captured g col row)] ++ [newest]) in Heq.
      rewrite (assoc_L (++)) in Heq.
      by apply app_inj_tail in Heq as [_ ->].
    + intros (older & Heq). by exists older, (board g).
  - rewrite place_stone_valid by done.
    by destruct (is_ko_violation _).
  - intros Hko. rewrite place_stone_valid, Hko by done.
    cbn [fst snd board black_turn prisoners history prev_boards set_board].
    destruct (captured_cells g col row Hb) as [Hw _].
    repeat split; try done.
    + apply (getitem_setitem_eq (size g)); [done|by apply in_bounds_spec].
    + intros x y Hne. apply getitem_setitem_ne; [lia|lia|congruence].
    + intros x y _ Hz.
      destruct (decide ((x, y) = (col, row))) as [Heq|Hne].
      * injection Heq as -> ->.
        apply (getitem_setitem_eq (size g)); [done|by apply in_bounds_spec].
      * rewrite getitem_setitem_ne; [done|lia|lia|congruence].
Qed.

(** ** Undo *)

Lemma undo_move_snoc g b p hist :
  history g = hist ++ [(b, p)] →
  undo_move g =
    mkGoGame (size g) b (negb (black_turn g)) p hist (prev_boards g).
Proof.
  intros Hh. unfold undo_move. by rewrite Hh, last_snoc, removelast_last.
Qed.

(** C10.  After a call refused by the ko test, one call of [undo_move]
    gives back the board, the prisoner counts and the history of just
    before the refused call, and leaves the turn flag flipped with respect
    to its value before that call. *)
Theorem undo_after_ko_rejection g col row g' :
  is_valid_move g col row = true →
  place_stone g col row = (false, g') →
  board (undo_move g') = board g
  ∧ prisoners (undo_move g') = prisoners g
  ∧ history (undo_move g') = history g
  ∧ black_turn (undo_move g') = negb (black_turn g).
Proof.
  intros Hv Hplace.
  apply place_stone_false_ko in Hplace as [_ ->]; [|done].
  destruct (captured_frame g col row) as (_ & Ht & Hh & _).
  rewrite (undo_move_snoc _ (board g) (prisoners g) (history g)) by done.
  cbn. by rewrite Ht.
Qed.

(** ** Prisoners and score *)

(** Capture resolution moves stones of the opponent from the board to the
    mover's prisoner count. *)
Lemma captured_count g col row :
  well_shaped (size g) (board g) = true →
  count_of (prisoners (captured g col row)) (self_color g)
    + Z.of_nat (length (stones (size g) (board (captured g col row))
                          (other_color g)))
  = count_of (prisoners g) (self_color g)
    + Z.of_nat (length (stones (size g) (board (placed g col row))
                          (other_color g))).
Proof.
  intros Hb. unfold captured, capture_stones.
  destruct (placed_frame g col row) as (_ & _ & _ & -> & ->).
  apply (capture_loop_count (self_color g) (other_color g) _
           (placed g col row)).
  - by apply (well_shaped_placed g).
  - apply get_stone_groups_NoDup.
  - intros c Hc. by rewrite get_stone_groups_perm in Hc.
Qed.

(** What [calculate_score] returns: the black count, and the white count
    plus the komi. *)
Lemma calculate_score_spec g :
  (calculate_score g).1
  = (inject_Z (count_of (prisoners g) "black"),
     (inject_Z (count_of (prisoners g) "white") + komi)%Q).
Proof.
  unfold calculate_score. cbn [fst]. do 3 f_equal.
  unfold count_of. by rewrite lookup_insert_ne.
Qed.

(** C9.  Take a call refused by the ko test and let k be the number of
    opponent stones that left the board during the call.  The mover's
    prisoner count after the call is its value before the call plus k, and
    [calculate_score] reports that count: as the black score when Black
    moved, and with the komi added as the white score when White moved. *)
Theorem ko_rejection_keeps_prisoners g col row g' :
  well_shaped (size g) (board g) = true →
  is_valid_move g col row = true →
  place_stone g col row = (false, g') →
  let k := Z.of_nat (length (stones (size g) (board g) (other_color g)))
           - Z.of_nat (length (stones (size g) (board g') (other_color g))) in
  count_of (prisoners g') (self_color g)
    = count_of (prisoners g) (self_color g) + k
  ∧ (calculate_score g').1
    = if black_turn g
      then (inject_Z (count_of (prisoners g) "black" + k),
            (inject_Z (count_of (prisoners g) "white") + komi)%Q)
      else (inject_Z (count_of (prisoners g) "black"),
            (inject_Z (count_of (prisoners g) "white" + k) + komi)%Q).
Proof.
  intros Hb Hv Hplace k.
  apply place_stone_false_ko in Hplace as [_ ->]; [|done].
  pose proof (captured_count g col row Hb) as Hcount.
  rewrite stones_placed_other in Hcount by done.
  pose proof (captured_prisoners_other g col row) as Hother.
  assert (count_of (prisoners (captured g col row)) (self_color g)
          = count_of (prisoners g) (self_color g) + k) as Hself.
  { subst k. cbn [board set_board].
    rewrite stones_reverted_other by done. lia. }
  split; [done|].
  rewrite calculate_score_spec. cbn [prisoners set_board].
  unfold self_color, other_color in Hself, Hother.
  destruct (black_turn g); by rewrite Hself, Hother.
Qed.

(** ** Undoing a run of accepted moves *)

Lemma undo_move_view g1 g2 :
  undo_view g1 = undo_view g2 →
  undo_view (undo_move g1) = undo_view (undo_move g2).
Proof.
  unfold undo_view, undo_move. intros Heq. simplify_eq.
  destruct g1 as [s1 b1 t1 p1 h1 l1], g2 as [s2 b2 t2 p2 h2 l2].
  simpl in *. subst. by destruct (last h2) as [[b p]|].
Qed.

Lemma undo_moves_S n g :
  undo_moves (S n) g = undo_move (undo_moves n g).
Proof.
  revert g. induction n as [|n IH]; intros g; [done|].
  change (undo_moves (S (S n)) g) with (undo_moves (S n) (undo_move g)).
  by rewrite IH.
Qed.

(** An accepted move followed by one undo gives back what undo reads. *)
Lemma undo_place_stone g col row g' :
  place_stone g col row = (true, g') →
  undo_view (undo_move g') = undo_view g.
Proof.
  intros Hplace. apply place_stone_true in Hplace as (_ & _ & ->).
  destruct (captured_frame g col row) as (Hsz & _ & Hh & _).
  rewrite (undo_move_snoc _ (board g) (prisoners g) (history g)) by done.
  unfold undo_view. cbn. by rewrite Hsz, negb_involutive.
Qed.

Lemma undo_play g moves :
  (play g moves).1 = replicate (length moves) true →
  undo_view (undo_moves (length moves) (play g moves).2) = undo_view g.
Proof.
  revert g. induction moves as [|m moves IH]; intros g Hall; [done|].
  cbn [play] in *.
  destruct (place_stone g m.1 m.2) as [r g1] eqn:Hplace.
  destruct (play g1 moves) as [rs g2] eqn:Hplay.
  cbn [fst snd length replicate] in *.
  injection Hall as -> Hrs.
  specialize (IH g1). rewrite Hplay in IH. specialize (IH Hrs).
  rewrite undo_moves_S.
  rewrite <- (undo_place_stone g m.1 m.2 g1 Hplace).
  by apply undo_move_view.
Qed.

(** C7.  After N calls of [place_stone] that all returned true on a fresh
    engine, N calls of [undo_move] give back the initial state: the board of
    zeros, no prisoner for either colour, Black to move (and an empty
    history). *)
Theorem undo_restores_initial n moves :
  (play (init n) moves).1 = replicate (length moves) true →
  board (undo_moves (length moves) (play (init n) moves).2) = zeros n
  ∧ count_of (prisoners (undo_moves (length moves) (play (init n) moves).2))
      "black" = 0
  ∧ count_of (prisoners (undo_moves (length moves) (play (init n) moves).2))
      "white" = 0
  ∧ black_turn (undo_moves (length moves) (play (init n) moves).2) = true
  ∧ history (undo_moves (length moves) (play (init n) moves).2) = [].
Proof.
  intros Hall. apply undo_play in Hall. unfold undo_view in Hall.
  injection Hall as _ -> -> -> ->. done.
Qed.

(** ** The ko position, move by move *)

(** C1.  In the ko position Black's recapture at (2,1) is refused, but the
    board after the call is not the board White's capture left: the white
    stone at (1,1), which made the capture, is gone, and Black has been
    credited one prisoner. *)
Theorem ko_recapture_changes_board :
  (play (init 5) ko_moves).1 = replicate 8 true
  ∧ getitem (board ko_game) 1 1 = 2
  ∧ getitem (board ko_game) 2 1 = 0
  ∧ count_of (prisoners ko_game) "white" = 1
  ∧ (place_stone ko_game 2 1).1 = false
  ∧ getitem (board (place_stone ko_game 2 1).2) 1 1 = 0
  ∧ board (place_stone ko_game 2 1).2 ≠ board ko_game
  ∧ count_of (prisoners (place_stone ko_game 2 1).2) "black" = 1.
Proof. by vm_compute. Qed.

(** C3.  Nine calls on a fresh engine, eight accepted and the ninth refused
    by the ko test, and no undo: the history holds nine snapshots. *)
Theorem ko_rejection_leaves_snapshot :
  (play (init 5) (ko_moves ++ [(2, 1)])).1 = replicate 8 true ++ [false]
  ∧ length (history (play (init 5) (ko_moves ++ [(2, 1)])).2) = 9%nat
  ∧ length (history ko_game) = 8%nat.
Proof. by vm_compute. Qed.

(** ** The theorems at concrete positions *)

(** Black at (0,2) captures the white pair in the corner. *)
Lemma capture_exactly_one_group_witness :
  NoDup [(0, 0); (0, 1)]
  ∧ count_of (prisoners (place_stone corner_game 0 2).2) "black"
    = count_of (prisoners corner_game) "black" + 2
  ∧ (∀ x y, (x, y) ∈ [(0, 0); (0, 1)] →
       getitem (board (placed corner_game 0 2)) x y = 2
       ∧ getitem (board (place_stone corner_game 0 2).2) x y = 0)
  ∧ (∀ x y, (x, y) ∉ [(0, 0); (0, 1)] →
       getitem (board (place_stone corner_game 0 2).2) x y
       = getitem (board (placed corner_game 0 2)) x y).
Proof.
  apply (capture_exactly_one_group corner_game 0 2 []
           [(0, 0); (0, 1)] [] (place_stone corner_game 0 2).2).
  - vm_compute. reflexivity.
  - vm_compute. reflexivity.
  - vm_compute. reflexivity.
  - intros h Hh. simpl in Hh. by apply elem_of_nil in Hh.
  - vm_compute. reflexivity.
Defined.

(** Black plays the corner (0,0), a point without a liberty: the call is
    accepted and the stone stays, with no liberty. *)
Lemma self_capture_permitted_witness :
  has_no_liberties (place_stone suicide_game 0 0).2 [(0, 0)] = true
  ∧ (place_stone suicide_game 0 0).1 = true
  ∧ getitem (board (place_stone suicide_game 0 0).2) 0 0 = 1
  ∧ ∀ x y,
      getitem (board (placed suicide_game 0 0)) x y = 1 →
      getitem (board (place_stone suicide_game 0 0).2) x y = 1.
Proof.
  split; [vm_compute; reflexivity|].
  apply (self_capture_permitted suicide_game 0 0).
  - vm_compute. reflexivity.
  - vm_compute. reflexivity.
  - vm_compute. reflexivity.
Defined.

(** The refused recapture in the ko position. *)
Lemma ko_violation_partial_revert_witness :
  is_ko_violation (captured ko_game 2 1) = true
  ∧ (place_stone ko_game 2 1).1 = false
  ∧ getitem (board (captured ko_game 2 1)) 1 1 = 0
  ∧ getitem (board (place_stone ko_game 2 1).2) 1 1 = 0
  ∧ history (place_stone ko_game 2 1).2
    = history ko_game ++ [(board ko_game, prisoners ko_game)].
Proof.
  destruct (ko_violation_partial_revert ko_game 2 1) as (_ & _ & Hrev).
  - vm_compute. reflexivity.
  - vm_compute. reflexivity.
  - assert (is_ko_violation (captured ko_game 2 1) = true) as Hko
      by (vm_compute; reflexivity).
    destruct (Hrev Hko) as (_ & _ & _ & Hstay & _ & _ & Hh & _).
    split; [done|]. split; [vm_compute; reflexivity|].
    split; [vm_compute; reflexivity|]. split; [|done].
    apply Hstay; vm_compute; reflexivity.
Defined.

Lemma undo_after_ko_rejection_witness :
  board (undo_move (place_stone ko_game 2 1).2) = board ko_game
  ∧ prisoners (undo_move (place_stone ko_game 2 1).2) = prisoners ko_game
  ∧ history (undo_move (place_stone ko_game 2 1).2) = history ko_game
  ∧ black_turn (undo_move (place_stone ko_game 2 1).2)
    = negb (black_turn ko_game).
Proof.
  apply (undo_after_ko_rejection ko_game 2 1).
  - vm_compute. reflexivity.
  - vm_compute. reflexivity.
Defined.

(** The refused recapture took one white stone: Black's count goes from 0
    to 1, and the score shows it. *)
Lemma ko_rejection_keeps_prisoners_witness :
  count_of (prisoners ko_game) "black" = 0
  ∧ count_of (prisoners (place_stone ko_game 2 1).2) "black" = 1
  ∧ (calculate_score (place_stone ko_game 2 1).2).1
    = (inject_Z 1, (inject_Z 1 + komi)%Q).
Proof.
  destruct (ko_rejection_keeps_prisoners ko_game 2 1
              (place_stone ko_game 2 1).2) as [Hcount Hscore].
  - vm_compute. reflexivity.
  - vm_compute. reflexivity.
  - vm_compute. reflexivity.
  - split; [vm_compute; reflexivity|]. split.
    + assert (self_color ko_game = "black"%string) as Hself
        by (vm_compute; reflexivity).
      rewrite Hself in Hcount. rewrite Hcount. vm_compute. reflexivity.
    + rewrite Hscore. vm_compute. reflexivity.
Defined.

(** The eight moves of the ko position, one of them a capture, undone. *)
Lemma undo_restores_initial_witness :
  board (undo_moves 8 ko_game) = zeros 5
  ∧ count_of (prisoners (undo_moves 8 ko_game)) "black" = 0
  ∧ count_of (prisoners (undo_moves 8 ko_game)) "white" = 0
  ∧ black_turn (undo_moves 8 ko_game) = true
  ∧ history (undo_moves 8 ko_game) = [].
Proof.
  apply (undo_restores_initial 5 ko_moves). vm_compute. reflexivity.
Defined.

(** ** Groups are the connected components *)

Lemma adjacent_sym u v : adjacent u v = adjacent v u.
Proof. unfold adjacent. f_equal. lia. Qed.

Lemma plain_bfs_queue_reached fuel queue rest reached others :
  plain_bfs fuel queue rest = (reached, others) →
  ∀ u, u ∈ queue → u ∈ reached.
Proof.
  revert queue rest reached others.
  induction fuel as [|f IH]; intros queue rest reached others Hbfs u Hu.
  - simpl in Hbfs. by simplify_eq.
  - destruct queue as [|v q]; simpl in Hbfs; [by simplify_eq|].
    destruct (plain_bfs f _ _) as [r o] eqn:E. simplify_eq.
    apply elem_of_cons in Hu as [->|Hu]; [apply list_elem_of_here|].
    apply list_elem_of_further. apply (IH _ _ _ _ E).
    apply elem_of_app. by left.
Qed.

Lemma plain_bfs_others_rest fuel queue rest reached others :
  plain_bfs fuel queue rest = (reached, others) →
  ∀ u, u ∈ others → u ∈ rest.
Proof.
  revert queue rest reached others.
  induction fuel as [|f IH]; intros queue rest reached others Hbfs u Hu.
  - simpl in Hbfs. by simplify_eq.
  - destruct queue as [|v q]; simpl in Hbfs; [by simplify_eq|].
    destruct (plain_bfs f _ _) as [r o] eqn:E. simplify_eq.
    apply (IH _ _ _ _ E), list_elem_of_filter in Hu. tauto.
Qed.

(** With fuel for every node, the search ends on an empty queue: no node
    left over touches a node reached. *)
Lemma plain_bfs_closed fuel queue rest reached others :
  (length queue + length rest ≤ fuel)%nat →
  plain_bfs fuel queue rest = (reached, others) →
  ∀ u v, u ∈ reached → v ∈ others → adjacent u v = false.
Proof.
  revert queue rest reached others.
  induction fuel as [|f IH];
    intros queue rest reached others Hlen Hbfs u v Hu Hv.
  - simpl in Hbfs. simplify_eq. destruct reached; [|simpl in Hlen; lia].
    by apply elem_of_nil in Hu.
  - destruct queue as [|x q]; simpl in Hbfs.
    { simplify_eq. by apply elem_of_nil in Hu. }
    destruct (plain_bfs f _ _) as [r o] eqn:E. simplify_eq.
    apply elem_of_cons in Hu as [->|Hu].
    + apply (plain_bfs_others_rest _ _ _ _ _ E), list_elem_of_filter in Hv.
      destruct Hv as [Hv _]. by apply not_true_is_false.
    + eapply IH; [|exact E|done|done].
      pose proof (filter_app_complement
                    (λ c : coord, adjacent x c = true) rest) as Hperm.
      apply Permutation_length in Hperm.
      rewrite !length_app in *. simpl in Hlen. lia.
Qed.

(** Every node reached is linked to the root through nodes reached. *)
Lemma plain_bfs_linked fuel queue rest reached others nodes root :
  plain_bfs fuel queue rest = (reached, others) →
  (∀ u, u ∈ reached → u ∈ nodes) →
  (∀ u, u ∈ queue → linked nodes root u) →
  ∀ u, u ∈ reached → linked nodes root u.
Proof.
  revert queue rest reached others.
  induction fuel as [|f IH]; intros queue rest reached others Hbfs Hsub Hq u Hu.
  - simpl in Hbfs. simplify_eq. by apply Hq.
  - destruct queue as [|v q]; simpl in Hbfs; [simplify_eq; by apply Hq|].
    destruct (plain_bfs f _ _) as [r o] eqn:E. simplify_eq.
    apply elem_of_cons in Hu as [->|Hu]; [apply Hq, list_elem_of_here|].
    eapply IH; [exact E| | |done].
    + intros w Hw. by apply Hsub, list_elem_of_further.
    + intros w Hw. apply elem_of_app in Hw as [Hw|Hw].
      * by apply Hq, list_elem_of_further.
      * pose proof Hw as Hw'. apply list_elem_of_filter in Hw' as [Hadj _].
        apply (linked_step nodes root v w);
          [apply Hq, list_elem_of_here| |done].
        apply Hsub, list_elem_of_further.
        apply (plain_bfs_queue_reached _ _ _ _ _ E), elem_of_app. by right.
Qed.

Lemma connected_components_elem fuel nodes group u :
  (length nodes ≤ fuel)%nat →
  group ∈ connected_components fuel nodes → u ∈ group → u ∈ nodes.
Proof.
  intros Hlen Hg Hu. rewrite <- (connected_components_perm fuel) by done.
  apply list_elem_of_In, in_concat. exists group.
  by rewrite <- !list_elem_of_In.
Qed.

(** Each component is not empty and is linked from its first node. *)
Lemma connected_components_linked fuel nodes group :
  (length nodes ≤ fuel)%nat →
  group ∈ connected_components fuel nodes →
  ∃ root, root ∈ group ∧ ∀ u, u ∈ group → linked group root u.
Proof.
  revert nodes. induction fuel as [|f IH]; intros nodes Hlen Hg.
  { destruct nodes; by apply elem_of_nil in Hg. }
  destruct nodes as [|v rest]; [by apply elem_of_nil in Hg|].
  cbn [connected_components] in Hg.
  destruct (plain_bfs (length (v :: rest)) [v] rest) as [r o] eqn:E.
  apply elem_of_cons in Hg as [->|Hg].
  - assert (v ∈ r) as Hv.
    { apply (plain_bfs_queue_reached _ _ _ _ _ E), list_elem_of_here. }
    exists v. split; [done|].
    apply (plain_bfs_linked _ _ _ _ _ r v E); [done|].
    intros u Hu. apply list_elem_of_singleton in Hu as ->.
    by apply linked_here.
  - apply (IH o); [|done].
    pose proof (plain_bfs_perm _ _ _ _ _ E) as Hperm.
    apply plain_bfs_start in E as [tail ->].
    apply Permutation_length in Hperm. simpl in Hperm, Hlen.
    rewrite !length_app in Hperm. simpl in Hperm. lia.
Qed.

(** No edge of the grid joins two different components. *)
Lemma connected_components_apart fuel nodes i j gi gj u v :
  (length nodes ≤ fuel)%nat →
  (i < j)%nat →
  connected_components fuel nodes !! i = Some gi →
  connected_components fuel nodes !! j = Some gj →
  u ∈ gi → v ∈ gj → adjacent u v = false.
Proof.
  revert nodes i j.
  induction fuel as [|f IH]; intros nodes i j Hlen Hij Hi Hj Hu Hv.
  { by destruct nodes. }
  destruct nodes as [|x rest]; [done|].
  cbn [connected_components] in Hi, Hj.
  destruct (plain_bfs (length (x :: rest)) [x] rest) as [r o] eqn:E.
  assert (length o ≤ f)%nat as Hlen'.
  { pose proof (plain_bfs_perm _ _ _ _ _ E) as Hperm.
    pose proof E as E'. apply plain_bfs_start in E' as [tail ->].
    apply Permutation_length in Hperm. simpl in Hperm, Hlen.
    rewrite !length_app in Hperm. simpl in Hperm. lia. }
  destruct j as [|j]; [lia|]. cbn in Hj.
  destruct i as [|i]; cbn in Hi.
  - simplify_eq.
    apply (plain_bfs_closed (length (x :: rest)) [x] rest gi o
             (Nat.le_refl _) E u v); [done|].
    apply (connected_components_elem f o gj); [done| |done].
    by eapply list_elem_of_lookup_2.
  - apply (IH o i j); [done|lia|done..].
Qed.

(** X1.  The groups of a colour are the maximal connected sets of its stones:
    every stone of the colour on the board is in a group and nothing else
    is, no stone is listed twice, and each group is not empty, is linked
    from one of its stones through its own stones, and contains every stone
    of the colour next to one of its stones. *)
Theorem get_stone_groups_components g color :
  (∀ x y, (∃ group, group ∈ get_stone_groups g color ∧ (x, y) ∈ group) ↔
          getitem (board g) x y = color_code color
          ∧ 0 ≤ x < size g ∧ 0 ≤ y < size g)
  ∧ NoDup (concat (get_stone_groups g color))
  ∧ ∀ group, group ∈ get_stone_groups g color →
      (∃ root, root ∈ group ∧ ∀ u, u ∈ group → linked group root u)
      ∧ ∀ u v, u ∈ group → v ∈ stones (size g) (board g) color →
          adjacent u v = true → v ∈ group.
Proof.
  split; [intros x y; apply elem_of_get_stone_groups|].
  split; [apply get_stone_groups_NoDup|].
  intros group Hg. unfold get_stone_groups in *.
  set (nodes := stones (size g) (board g) color) in *.
  split; [by apply (connected_components_linked (length nodes) nodes)|].
  intros u v Hu Hv Hadj.
  rewrite <- (connected_components_perm (length nodes) nodes) in Hv by done.
  apply list_elem_of_In, in_concat in Hv as (group' & Hg' & Hv).
  apply list_elem_of_In in Hg', Hv.
  apply list_elem_of_lookup in Hg as [i Hi].
  apply list_elem_of_lookup in Hg' as [j Hj].
  destruct (lt_eq_lt_dec i j) as [[Hlt| ->]|Hgt].
  - pose proof (connected_components_apart _ _ i j group group' u v
                  (Nat.le_refl _) Hlt Hi Hj Hu Hv). congruence.
  - by simplify_eq.
  - pose proof (connected_components_apart _ _ j i group' group v u
                  (Nat.le_refl _) Hgt Hj Hi Hv Hu) as Hno.
    rewrite adjacent_sym in Hno. congruence.
Qed.

(** ** Further properties of the engine *)

(** X2.  [is_valid_move] is a query: true exactly for an empty point of the
    board, false for a point off the board on either axis and for an
    occupied point. *)
Theorem is_valid_move_iff_empty_on_board g col row :
  is_valid_move g col row
  = in_bounds (size g) col row && (getitem (board g) col row =? 0).
Proof.
  apply eq_true_iff_eq.
  rewrite is_valid_move_spec, andb_true_iff, in_bounds_spec, Z.eqb_eq.
  done.
Qed.

(** X3.  [calculate_score] reports the black prisoner count and the white
    prisoner count plus 6.5; it leaves the board, the turn, the two stacks
    and both counts as they were. *)
Theorem calculate_score_prisoners_and_komi g :
  (calculate_score g).1
  = (inject_Z (count_of (prisoners g) "black"),
     (inject_Z (count_of (prisoners g) "white") + (13 # 2))%Q)
  ∧ board (calculate_score g).2 = board g
  ∧ black_turn (calculate_score g).2 = black_turn g
  ∧ history (calculate_score g).2 = history g
  ∧ prev_boards (calculate_score g).2 = prev_boards g
  ∧ ∀ c, count_of (prisoners (calculate_score g).2) c
         = count_of (prisoners g) c.
Proof.
  split; [apply calculate_score_spec|]. repeat split.
  intros c. unfold calculate_score, count_of. cbn [snd prisoners set_prisoners].
  destruct (decide (c = "white"%string)) as [->|Hw].
  { rewrite lookup_insert_eq. cbn [default]. by rewrite lookup_insert_ne. }
  rewrite lookup_insert_ne by done.
  destruct (decide (c = "black"%string)) as [->|Hb].
  { by rewrite lookup_insert_eq. }
  by rewrite lookup_insert_ne.
Qed.

(** On a 5 x 5 board, after Black's first move at (2,2) the score is 0 for
    Black and 6.5 for White. *)
Theorem score_after_first_move :
  (place_stone (init 5) 2 2).1 = true
  ∧ (calculate_score (place_stone (init 5) 2 2).2).1 = (0 # 1, 13 # 2)%Q.
Proof. by vm_compute. Qed.

(** On a 5 x 5 board with a lone white stone in the corner (0,0), Black
    fills its two liberties: the stone is taken off and Black has one
    prisoner. *)
Theorem lone_corner_stone_captured :
  (play (init 5) [(1, 0); (0, 0); (0, 1)]).1 = [true; true; true]
  ∧ getitem (board (play (init 5) [(1, 0); (0, 0)]).2) 0 0 = 2
  ∧ getitem (board (play (init 5) [(1, 0); (0, 0); (0, 1)]).2) 0 0 = 0
  ∧ count_of (prisoners (play (init 5) [(1, 0); (0, 0); (0, 1)]).2) "black"
    = 1.
Proof. by vm_compute. Qed.

(** X6.  Each call of [place_stone] that passes validation pushes one snapshot,
    whether it is then accepted or refused by the ko test; an invalid call
    pushes none; [undo_move] pops one when there is one. *)
Theorem history_length_step g col row :
  length (history (place_stone g col row).2)
  = (if is_valid_move g col row then S (length (history g))
     else length (history g))
  ∧ length (history (undo_move g)) = pred (length (history g)).
Proof.
  split.
  - destruct (is_valid_move g col row) eqn:Hv.
    + rewrite place_stone_valid by done.
      destruct (captured_frame g col row) as (_ & _ & Hh & _).
      destruct (is_ko_violation _);
        cbn [snd history set_board set_black_turn];
        rewrite Hh, length_app; simpl; lia.
    + by rewrite place_stone_invalid.
  - unfold undo_move. destruct (last (history g)) as [[b p]|] eqn:Hl.
    + apply last_Some in Hl as [hist Hh]. cbn [history].
      rewrite Hh, removelast_last, length_app. simpl. lia.
    + apply last_None in Hl. by rewrite Hl.
Qed.

(** ** The shape of the board is an invariant *)

Lemma getitem_setitem_cases b x y v x' y' :
  getitem (setitem b x y v) x' y' = v
  ∨ getitem (setitem b x y v) x' y' = getitem b x' y'.
Proof.
  unfold getitem, setitem.
  destruct ((0 <=? x') && (0 <=? y')); [|by right].
  destruct (decide (Z.to_nat x = Z.to_nat x')) as [Heq|Hne].
  - rewrite <- Heq, list_lookup_alter_eq.
    destruct (b !! Z.to_nat x) as [r|]; simpl; [|by right].
    destruct (decide (Z.to_nat y = Z.to_nat y')) as [Heqy|Hney].
    + rewrite <- Heqy.
      destruct (decide (Z.to_nat y < length r)%nat).
      * left. by rewrite list_lookup_insert_eq.
      * right. by rewrite list_insert_ge by lia.
    + right. by rewrite list_lookup_insert_ne.
  - right. by rewrite list_lookup_alter_ne.
Qed.

Lemma cells_ok_zeros n : cells_ok (zeros n).
Proof.
  intros x y. left. unfold getitem, zeros.
  destruct ((0 <=? x) && (0 <=? y)); [|done].
  destruct (replicate _ _ !! Z.to_nat x) as [r|] eqn:Hr; [|done].
  apply lookup_replicate in Hr as [-> _].
  destruct (replicate _ _ !! Z.to_nat y) as [v|] eqn:Hv; [|done].
  by apply lookup_replicate in Hv as [-> _].
Qed.

Lemma engine_ok_place_stone n g col row :
  engine_ok n g → engine_ok n (place_stone g col row).2.
Proof.
  intros (Hsz & [Hb Hc] & Hh). subst n.
  destruct (is_valid_move g col row) eqn:Hv;
    [|by rewrite place_stone_invalid].
  rewrite place_stone_valid by done.
  destruct (captured_frame g col row) as (Hsz & _ & Hhist & _).
  destruct (captured_cells g col row Hb) as [Hw Hcells].
  assert (cells_ok (board (captured g col row))) as Hck.
  { intros x y. destruct (Hcells x y) as [->|[-> _]]; [|by left].
    unfold placed. cbn [board set_board snapshot black_turn].
    destruct (getitem_setitem_cases (board g) col row
                (if black_turn g then 1 else 2) x y) as [->| ->];
      [destruct (black_turn g); tauto|apply Hc]. }
  assert (Forall (λ s : Board * Prisoners,
            well_shaped (size g) s.1 = true ∧ cells_ok s.1)
            (history (captured g col row))) as Hhk.
  { rewrite Hhist. apply Forall_app. split; [done|].
    by apply Forall_singleton. }
  destruct (is_ko_violation _);
    cbn [snd size board history set_board set_black_turn];
    (split; [done|]); (split; [|done]); [|done].
  split; [by apply well_shaped_setitem|].
  intros x y. cbn [board set_board].
  destruct (getitem_setitem_cases (board (captured g col row)) col row 0 x y)
    as [->| ->]; [by left|apply Hck].
Qed.

Lemma engine_ok_undo_move n g : engine_ok n g → engine_ok n (undo_move g).
Proof.
  intros (Hsz & Hb & Hh). unfold undo_move.
  destruct (last (history g)) as [[b p]|] eqn:Hl; [|done].
  apply last_Some in Hl as [hist Hhist]. rewrite Hhist in *.
  rewrite removelast_last. apply Forall_app in Hh as [Hh Hlast].
  rewrite Forall_singleton in Hlast. destruct Hlast as [Hw Hc].
  split; [done|]. by split.
Qed.

(** X9.  In every state an engine built by [GoGame(n)] reaches, the size
    is [n], the board is an n x n array whose cells are 0, 1 or 2, and so
    is every board saved in the history. *)
Theorem reachable_engine_ok n g : reachable n g → engine_ok n g.
Proof.
  induction 1 as [|g col row _ IH|g _ IH|g _ IH].
  - split; [done|]. split; [|by apply Forall_nil].
    split; [apply well_shaped_zeros|apply cells_ok_zeros].
  - by apply engine_ok_place_stone.
  - by apply engine_ok_undo_move.
  - done.
Qed.

Lemma reachable_play n g moves :
  reachable n g → reachable n (play g moves).2.
Proof.
  revert g. induction moves as [|m moves IH]; intros g Hg; [done|].
  cbn [play].
  pose proof (reachable_place_stone n g m.1 m.2 Hg) as Hstep.
  destruct (place_stone g m.1 m.2) as [r g1].
  specialize (IH g1 Hstep). by destruct (play g1 moves) as [rs g2].
Qed.

Lemma reachable_engine_ok_witness : engine_ok 5 ko_game.
Proof.
  apply (reachable_engine_ok 5 ko_game).
  apply reachable_play, reachable_init.
Defined.

(** ** A refused call is not undone in full *)

(** X10.  When a call is refused by the ko test, an opponent stone that
    capture resolution took off during the call stays off: the board after
    the call is not the board before it. *)
Theorem ko_rejection_loses_captured_stones g col row g' x y :
  well_shaped (size g) (board g) = true →
  is_valid_move g col row = true →
  place_stone g col row = (false, g') →
  getitem (board g) x y = color_code (other_color g) →
  getitem (board (captured g col row)) x y = 0 →
  getitem (board g') x y = 0 ∧ board g' ≠ board g.
Proof.
  intros Hb Hv Hplace Hstone Hgone.
  apply place_stone_false_ko in Hplace as [_ ->]; [|done].
  pose proof (color_code_nonzero (other_color g)) as Hnz.
  apply is_valid_move_spec in Hv as [Hin Hempty].
  assert (getitem (setitem (board (captured g col row)) col row 0) x y = 0)
    as Hz.
  { rewrite getitem_setitem_ne; [done|lia|lia|].
    intros Heq. injection Heq as -> ->. congruence. }
  cbn [board set_board]. split; [done|].
  intros Heq. rewrite Heq in Hz. congruence.
Qed.

(** In the ko position the white stone at (1,1) is lost to the refused
    recapture. *)
Lemma ko_rejection_loses_captured_stones_witness :
  getitem (board ko_game) 1 1 = 2
  ∧ getitem (board (place_stone ko_game 2 1).2) 1 1 = 0
  ∧ board (place_stone ko_game 2 1).2 ≠ board ko_game.
Proof.
  split; [vm_compute; reflexivity|].
  apply (ko_rejection_loses_captured_stones ko_game 2 1).
  - vm_compute. reflexivity.
  - vm_compute. reflexivity.
  - vm_compute. reflexivity.
  - vm_compute. reflexivity.
  - vm_compute. reflexivity.
Defined.

(** ** Capture resolution, group by group *)

Lemma board_ext n (b1 b2 : Board) :
  well_shaped n b1 = true → well_shaped n b2 = true →
  (∀ x y, 0 ≤ x < n → 0 ≤ y < n → getitem b1 x y = getitem b2 x y) →
  b1 = b2.
Proof.
  rewrite !well_shaped_spec. intros [Hl1 Hr1] [Hl2 Hr2] Hcells.
  apply list_eq. intros i.
  destruct (decide (i < Z.to_nat n)%nat) as [Hi|Hi];
    [|by rewrite !lookup_ge_None_2 by lia].
  destruct (lookup_lt_is_Some_2 b1 i) as [r1 Hrow1]; [lia|].
  destruct (lookup_lt_is_Some_2 b2 i) as [r2 Hrow2]; [lia|].
  rewrite Hrow1, Hrow2. f_equal.
  assert (length r1 = Z.to_nat n) as Hlen1
    by (apply Hr1; by eapply list_elem_of_lookup_2).
  assert (length r2 = Z.to_nat n) as Hlen2
    by (apply Hr2; by eapply list_elem_of_lookup_2).
  apply list_eq. intros j.
  destruct (decide (j < Z.to_nat n)%nat) as [Hj|Hj];
    [|by rewrite !lookup_ge_None_2 by lia].
  destruct (lookup_lt_is_Some_2 r1 j) as [v1 Hv1]; [lia|].
  destruct (lookup_lt_is_Some_2 r2 j) as [v2 Hv2]; [lia|].
  specialize (Hcells (Z.of_nat i) (Z.of_nat j)).
  unfold getitem in Hcells.
  replace ((0 <=? Z.of_nat i) && (0 <=? Z.of_nat j)) with true in Hcells
    by (symmetry; apply andb_true_iff; rewrite !Z.leb_le; lia).
  rewrite !Nat2Z.id, Hrow1, Hrow2, Hv1, Hv2 in Hcells.
  rewrite Hv1, Hv2. f_equal. apply Hcells; lia.
Qed.

Lemma concat_perm (l k : list (list coord)) :
  l ≡ₚ k → concat l ≡ₚ concat k.
Proof.
  induction 1 as [|h l k _ IH|h h' l|l k m _ IH1 _ IH2].
  - done.
  - simpl. by f_equiv.
  - simpl. rewrite !(assoc (++)). f_equiv. apply Permutation_app_comm.
  - by etransitivity.
Qed.

(** The liberty test reads the size and the neighbours of the group. *)
Lemma has_no_liberties_agree g g' group :
  size g' = size g →
  (∀ x y nx ny, (x, y) ∈ group →
     (nx = x - 1 ∧ ny = y) ∨ (nx = x + 1 ∧ ny = y)
     ∨ (nx = x ∧ ny = y - 1) ∨ (nx = x ∧ ny = y + 1) →
     in_bounds (size g) nx ny = true →
     getitem (board g') nx ny = getitem (board g) nx ny) →
  has_no_liberties g' group = has_no_liberties g group.
Proof.
  intros Hsz Hsame. apply eq_true_iff_eq.
  rewrite !has_no_liberties_true, Hsz.
  split; intros Hall x y Hin nx ny Hn Hb.
  - rewrite <- (Hsame x y nx ny) by done. by eapply Hall.
  - rewrite (Hsame x y nx ny) by done. by eapply Hall.
Qed.

Lemma neighbour_adjacent x y nx ny :
  (nx = x - 1 ∧ ny = y) ∨ (nx = x + 1 ∧ ny = y)
  ∨ (nx = x ∧ ny = y - 1) ∨ (nx = x ∧ ny = y + 1) →
  adjacent (nx, ny) (x, y) = true.
Proof. intros Hn. unfold adjacent. cbn [fst snd]. apply Z.eqb_eq. lia. Qed.

(** Taking a group off does not change the answer of the liberty test for
    a group that no edge joins to it. *)
Lemma has_no_liberties_remove_apart g h0 h :
  well_shaped (size g) (board g) = true → on_board (size g) h0 →
  (∀ u v, u ∈ h0 → v ∈ h → adjacent u v = false) →
  has_no_liberties (set_board g (remove_group (board g) h0)) h
  = has_no_liberties g h.
Proof.
  intros Hb Hon Hapart. apply has_no_liberties_agree; [done|].
  intros x y nx ny Hin Hn _. cbn [board set_board].
  rewrite (getitem_remove_group (size g)) by done.
  rewrite decide_False; [done|]. intros Hin0.
  pose proof (Hapart _ _ Hin0 Hin) as Hno.
  rewrite (neighbour_adjacent x y nx ny Hn) in Hno. done.
Qed.

Lemma filter_agree {A} (P Q : A → Prop) `{!∀ a, Decision (P a)}
    `{!∀ a, Decision (Q a)} (l : list A) :
  (∀ a, a ∈ l → (P a ↔ Q a)) → filter P l = filter Q l.
Proof.
  induction l as [|a l IH]; intros Hpq; [done|].
  rewrite !filter_cons.
  rewrite IH by (intros b Hb; by apply Hpq, list_elem_of_further).
  pose proof (Hpq a (list_elem_of_here a l)) as Ha.
  destruct (decide (P a)), (decide (Q a)); tauto.
Qed.

Lemma dead_groups_cons g h0 rest :
  dead_groups g (h0 :: rest)
  = if has_no_liberties g h0 then h0 :: dead_groups g rest
    else dead_groups g rest.
Proof.
  unfold dead_groups.
  rewrite (filter_cons (λ h, has_no_liberties g h = true)).
  destruct (has_no_liberties g h0); by case_decide.
Qed.

Section capture_exact.
Variable mover : string.

(** One turn of the loop leaves the answers of the liberty test for the
    groups still to come as they were. *)
Lemma capture_group_keeps_answers g h0 rest :
  well_shaped (size g) (board g) = true →
  on_board (size g) (h0 ++ concat rest) →
  NoDup (h0 ++ concat rest) →
  separated (h0 :: rest) →
  dead_groups (capture_group mover g h0) rest = dead_groups g rest.
Proof.
  intros Hb Hon Hnd Hsep. unfold dead_groups. apply filter_agree.
  intros h Hh. unfold capture_group.
  destruct (has_no_liberties g h0); [|done].
  assert (has_no_liberties
            (set_prisoners (set_board g (remove_group (board g) h0))
               (<[mover := count_of (prisoners g) mover
                           + Z.of_nat (length h0)]> (prisoners g))) h
          = has_no_liberties g h) as ->; [|done].
  rewrite <- (has_no_liberties_remove_apart g h0 h); [done|done| |].
  - intros c Hc. apply Hon, elem_of_app. by left.
  - intros u v Hu Hv.
    apply (Hsep h0 h u v);
      [apply list_elem_of_here|by apply list_elem_of_further| |done|done].
    intros ->. apply NoDup_app in Hnd as (_ & Hdisj & _).
    apply (Hdisj u Hu). apply list_elem_of_In, in_concat.
    exists h. by rewrite <- !list_elem_of_In.
Qed.

(** The whole loop: the cells of the groups found without a liberty on the
    board at entry are emptied, every other cell is kept, and the mover's
    prisoner entry is written, with the number of those cells added, when
    there is such a group. *)
Lemma capture_loop_exact groups g :
  well_shaped (size g) (board g) = true →
  on_board (size g) (concat groups) →
  NoDup (concat groups) →
  separated groups →
  (∀ x y,
     getitem (board (foldl (capture_group mover) g groups)) x y
     = if decide ((x, y) ∈ concat (dead_groups g groups)) then 0
       else getitem (board g) x y)
  ∧ prisoners (foldl (capture_group mover) g groups)
    = match dead_groups g groups with
      | [] => prisoners g
      | _ => <[mover := count_of (prisoners g) mover
                        + Z.of_nat (length (concat (dead_groups g groups)))]>
               (prisoners g)
      end.
Proof.
  revert g. induction groups as [|h0 rest IH]; intros g Hb Hon Hnd Hsep.
  { split; [|done]. intros x y. cbn. rewrite decide_False; [done|].
    by intros ?%elem_of_nil. }
  cbn [foldl concat] in *.
  pose proof (capture_group_keeps_answers g h0 rest Hb Hon Hnd Hsep) as Hdead.
  assert (on_board (size g) h0) as Hon0
    by (intros c Hc; apply Hon, elem_of_app; by left).
  assert (on_board (size g) (concat rest)) as Hon1
    by (intros c Hc; apply Hon, elem_of_app; by right).
  destruct (capture_group_frame mover g h0) as (Hsz & _).
  destruct (capture_group_cells mover g h0 Hb Hon0) as [Hw _].
  apply NoDup_app in Hnd as (_ & _ & Hnd1).
  assert (separated rest) as Hsep1.
  { intros h h' u v Hh Hh'. apply Hsep; by apply list_elem_of_further. }
  destruct (IH (capture_group mover g h0)) as [Hcells Hpris];
    [by rewrite Hsz|by rewrite Hsz|done|done|].
  rewrite Hdead in Hcells, Hpris. rewrite dead_groups_cons.
  destruct (has_no_liberties g h0) eqn:Hlib.
  - assert (capture_group mover g h0
            = set_prisoners (set_board g (remove_group (board g) h0))
                (<[mover := count_of (prisoners g) mover
                            + Z.of_nat (length h0)]> (prisoners g))) as Hcg
      by (unfold capture_group; by rewrite Hlib).
    rewrite Hcg in *. cbn [concat]. split.
    + intros x y. rewrite Hcells. cbn [board set_prisoners set_board].
      rewrite (getitem_remove_group (size g)) by done.
      destruct (decide ((x, y) ∈ concat (dead_groups g rest))) as [Hin|Hnin].
      * rewrite decide_True; [done|]. apply elem_of_app. by right.
      * destruct (decide ((x, y) ∈ h0)) as [Hin0|Hnin0].
        -- rewrite decide_True; [done|]. apply elem_of_app. by left.
        -- rewrite decide_False; [done|]. rewrite elem_of_app. tauto.
    + rewrite Hpris. cbn [prisoners set_prisoners set_board].
      rewrite length_app.
      assert (count_of (<[mover := count_of (prisoners g) mover
                                   + Z.of_nat (length h0)]> (prisoners g))
                mover
              = count_of (prisoners g) mover + Z.of_nat (length h0)) as ->
        by (unfold count_of at 1; by rewrite lookup_insert_eq).
      destruct (dead_groups g rest) as [|d ds].
      * cbn [concat length]. f_equal. lia.
      * rewrite insert_insert_eq. f_equal. lia.
  - assert (capture_group mover g h0 = g) as Hcg
      by (unfold capture_group; by rewrite Hlib).
    rewrite Hcg in *. by split.
Qed.
End capture_exact.

Lemma get_stone_groups_separated g color :
  separated (get_stone_groups g color).
Proof.
  intros h h' u v Hh Hh' Hne Hu Hv. unfold get_stone_groups in *.
  set (nodes := stones (size g) (board g) color) in *.
  apply list_elem_of_lookup in Hh as [i Hi].
  apply list_elem_of_lookup in Hh' as [j Hj].
  destruct (lt_eq_lt_dec i j) as [[Hlt| ->]|Hgt].
  - by apply (connected_components_apart (length nodes) nodes i j h h' u v
                (Nat.le_refl _)).
  - congruence.
  - rewrite adjacent_sym.
    by apply (connected_components_apart (length nodes) nodes j i h' h v u
                (Nat.le_refl _)).
Qed.

Lemma GoGame_eq (g1 g2 : GoGame) :
  size g1 = size g2 → board g1 = board g2 →
  black_turn g1 = black_turn g2 → prisoners g1 = prisoners g2 →
  history g1 = history g2 → prev_boards g1 = prev_boards g2 →
  g1 = g2.
Proof. destruct g1, g2. simpl. by intros -> -> -> -> -> ->. Qed.

(** [capture_stones], cell by cell. *)
Lemma capture_stones_exact g col row :
  well_shaped (size g) (board g) = true →
  (∀ x y,
     getitem (board (capture_stones g col row)) x y
     = if decide ((x, y) ∈ concat (dead_groups g
                             (get_stone_groups g (other_color g))))
       then 0 else getitem (board g) x y)
  ∧ prisoners (capture_stones g col row)
    = match dead_groups g (get_stone_groups g (other_color g)) with
      | [] => prisoners g
      | _ => <[self_color g :=
                 count_of (prisoners g) (self_color g)
                 + Z.of_nat (length (concat (dead_groups g
                               (get_stone_groups g (other_color g)))))]>
               (prisoners g)
      end.
Proof.
  intros Hb. unfold capture_stones. apply capture_loop_exact.
  - done.
  - apply groups_on_board.
  - apply get_stone_groups_NoDup.
  - apply get_stone_groups_separated.
Qed.

(** X11.  [capture_stones] empties exactly the cells of the opponent groups
    that have no liberty on the board at entry and keeps every other cell;
    it adds the number of emptied cells to the mover's prisoner count and
    leaves the opponent's count alone; when no opponent group is without a
    liberty it changes nothing at all. *)
Theorem capture_stones_removes_dead_groups g col row :
  well_shaped (size g) (board g) = true →
  (∀ x y h, h ∈ get_stone_groups g (other_color g) →
     has_no_liberties g h = true → (x, y) ∈ h →
     getitem (board (capture_stones g col row)) x y = 0)
  ∧ (∀ x y,
       (∀ h, h ∈ get_stone_groups g (other_color g) → (x, y) ∈ h →
             has_no_liberties g h = false) →
       getitem (board (capture_stones g col row)) x y
       = getitem (board g) x y)
  ∧ count_of (prisoners (capture_stones g col row)) (self_color g)
    = count_of (prisoners g) (self_color g)
      + Z.of_nat (length (concat (dead_groups g
                                    (get_stone_groups g (other_color g)))))
  ∧ count_of (prisoners (capture_stones g col row)) (other_color g)
    = count_of (prisoners g) (other_color g)
  ∧ ((∀ h, h ∈ get_stone_groups g (other_color g) →
           has_no_liberties g h = false) →
     capture_stones g col row = g).
Proof.
  intros Hb. destruct (capture_stones_exact g col row Hb) as [Hcells Hpris].
  assert (∀ x y,
            (x, y) ∈ concat (dead_groups g
                               (get_stone_groups g (other_color g)))
            ↔ ∃ h, h ∈ get_stone_groups g (other_color g)
                   ∧ has_no_liberties g h = true ∧ (x, y) ∈ h) as Hiff.
  { intros x y. rewrite list_elem_of_In, in_concat. unfold dead_groups.
    setoid_rewrite <- list_elem_of_In. split.
    - intros (h & Hh & Hin). apply list_elem_of_filter in Hh as [Hd Hh].
      by exists h.
    - intros (h & Hh & Hd & Hin). exists h.
      split; [by apply list_elem_of_filter|done]. }
  split; [|split; [|split; [|split]]].
  - intros x y h Hh Hdead Hin. rewrite Hcells.
    rewrite decide_True; [done|]. apply Hiff. eauto.
  - intros x y Hfree. rewrite Hcells.
    rewrite decide_False; [done|]. intros (h & Hh & Hdead & Hin)%Hiff.
    rewrite (Hfree h Hh Hin) in Hdead. done.
  - rewrite Hpris.
    destruct (dead_groups g (get_stone_groups g (other_color g))).
    + cbn [concat length]. lia.
    + unfold count_of at 1. by rewrite lookup_insert_eq.
  - unfold capture_stones, count_of.
    destruct (capture_loop_frame (self_color g)
                (get_stone_groups g (other_color g)) g)
      as (_ & _ & _ & _ & Hp).
    rewrite Hp; [done|].
    unfold self_color, other_color. by destruct (black_turn g).
  - intros Hfree. unfold capture_stones. by apply capture_loop_skip.
Qed.

(** Black's stone at (0,2) is on the board of the corner position: the two
    cells of the white pair are emptied and counted. *)
Lemma capture_stones_removes_dead_groups_witness :
  getitem (board (capture_stones (placed corner_game 0 2) 0 2)) 0 0 = 0
  ∧ getitem (board (capture_stones (placed corner_game 0 2) 0 2)) 0 2 = 1
  ∧ count_of (prisoners (capture_stones (placed corner_game 0 2) 0 2)) "black"
    = 2.
Proof.
  destruct (capture_stones_removes_dead_groups (placed corner_game 0 2) 0 2)
    as (Hdead & Hkeep & Hcount & _).
  - vm_compute. reflexivity.
  - split; [|split].
    + apply (Hdead 0 0 [(0, 0); (0, 1)]).
      * vm_compute. apply list_elem_of_here.
      * vm_compute. reflexivity.
      * apply list_elem_of_here.
    + rewrite Hkeep; [vm_compute; reflexivity|].
      intros h Hh Hin. vm_compute in Hh.
      apply list_elem_of_singleton in Hh as ->.
      apply elem_of_cons in Hin as [Heq|Hin]; [discriminate|].
      apply list_elem_of_singleton in Hin. discriminate.
    + assert (self_color (placed corner_game 0 2) = "black"%string) as Hself
        by (vm_compute; reflexivity).
      rewrite Hself in Hcount. rewrite Hcount. vm_compute. reflexivity.
Defined.

(** X12.  The outcome of capture resolution does not depend on the order in
    which the groups are visited: running the loop of [capture_stones] over
    any rearrangement of the list of opponent groups gives the same
    engine. *)
Theorem capture_order_irrelevant g col row groups :
  well_shaped (size g) (board g) = true →
  groups ≡ₚ get_stone_groups g (other_color g) →
  foldl (capture_group (self_color g)) g groups = capture_stones g col row.
Proof.
  intros Hb Hperm.
  destruct (capture_stones_exact g col row Hb) as [Hcells Hpris].
  destruct (capture_loop_exact (self_color g) groups g) as [Hcells' Hpris'].
  - done.
  - intros c Hc. apply (groups_on_board g (other_color g)).
    by rewrite <- (concat_perm _ _ Hperm).
  - rewrite (concat_perm _ _ Hperm). apply get_stone_groups_NoDup.
  - intros h h' u v Hh Hh'. apply (get_stone_groups_separated g (other_color g));
      by rewrite <- Hperm.
  - assert (dead_groups g groups
            ≡ₚ dead_groups g (get_stone_groups g (other_color g))) as Hdead
      by (unfold dead_groups; by rewrite Hperm).
    destruct (capture_loop_frame (self_color g) groups g)
      as (Hs1 & Ht1 & Hh1 & Hl1 & _).
    destruct (capture_loop_frame (self_color g)
                (get_stone_groups g (other_color g)) g)
      as (Hs2 & Ht2 & Hh2 & Hl2 & _).
    destruct (capture_loop_cells (self_color g) groups g) as [Hw1 _];
      [done| |].
    { intros c Hc. apply (groups_on_board g (other_color g)).
      by rewrite <- (concat_perm _ _ Hperm). }
    destruct (capture_loop_cells (self_color g)
                (get_stone_groups g (other_color g)) g) as [Hw2 _];
      [done|apply groups_on_board|].
    unfold capture_stones in *.
    apply GoGame_eq; try congruence.
    + apply (board_ext (size g)); [done|done|].
      intros x y _ _. rewrite Hcells, Hcells'.
      destruct (decide ((x, y) ∈ concat (dead_groups g groups))) as [Hin|Hnin].
      * rewrite decide_True; [done|]. by rewrite <- (concat_perm _ _ Hdead).
      * rewrite decide_False; [done|]. by rewrite <- (concat_perm _ _ Hdead).
    + rewrite Hpris, Hpris'.
      pose proof (Permutation_length (concat_perm _ _ Hdead)) as Hlen.
      destruct (dead_groups g groups) as [|d ds].
      * apply Permutation_nil_l in Hdead. by rewrite <- Hdead.
      * destruct (dead_groups g (get_stone_groups g (other_color g)))
          as [|d' ds'].
        { by apply Permutation_nil_r in Hdead. }
        by rewrite Hlen.
Qed.

(** The groups of the ko position visited from the last to the first. *)
Lemma capture_order_irrelevant_witness :
  foldl (capture_group (self_color (placed ko_game 2 1))) (placed ko_game 2 1)
    (reverse (get_stone_groups (placed ko_game 2 1)
                (other_color (placed ko_game 2 1))))
  = capture_stones (placed ko_game 2 1) 2 1.
Proof.
  apply (capture_order_irrelevant (placed ko_game 2 1) 2 1).
  - vm_compute. reflexivity.
  - apply reverse_Permutation.
Defined.

(** ** After capture resolution *)

Lemma NoDup_concat_disjoint (groups : list (list coord)) h h' u :
  NoDup (concat groups) → h ∈ groups → h' ∈ groups →
  u ∈ h → u ∈ h' → h = h'.
Proof.
  induction groups as [|a rest IH]; intros Hnd Hh Hh' Hu Hu'.
  { by apply elem_of_nil in Hh. }
  cbn [concat] in Hnd. apply NoDup_app in Hnd as (_ & Hdisj & Hnd).
  assert (∀ k, k ∈ rest → u ∈ k → u ∈ concat rest) as Hin.
  { intros k Hk Huk. apply list_elem_of_In, in_concat. exists k.
    by rewrite <- !list_elem_of_In. }
  apply elem_of_cons in Hh as [->|Hh], Hh' as [->|Hh'].
  - done.
  - destruct (Hdisj u Hu). by apply (Hin h').
  - destruct (Hdisj u Hu'). by apply (Hin h).
  - by apply IH.
Qed.

Lemma get_stone_groups_closed g color group u v :
  group ∈ get_stone_groups g color → u ∈ group →
  v ∈ stones (size g) (board g) color → adjacent u v = true →
  v ∈ group.
Proof.
  intros Hg Hu Hv Hadj.
  rewrite <- get_stone_groups_perm in Hv.
  apply list_elem_of_In, in_concat in Hv as (group' & Hg' & Hv).
  apply list_elem_of_In in Hg', Hv.
  destruct (decide (group = group')) as [->|Hne]; [done|].
  pose proof (get_stone_groups_separated g color group group' u v
                Hg Hg' Hne Hu Hv). congruence.
Qed.

Lemma get_stone_groups_linked g color group :
  group ∈ get_stone_groups g color →
  ∃ root, root ∈ group ∧ ∀ u, u ∈ group → linked group root u.
Proof.
  unfold get_stone_groups.
  by apply (connected_components_linked
              (length (stones (size g) (board g) color))).
Qed.

Lemma linked_elem nodes u v : linked nodes u v → u ∈ nodes ∧ v ∈ nodes.
Proof. induction 1 as [u Hu|u v w _ [Hu _] Hw _]; by split. Qed.

(** A set closed under the edges towards [nodes] holds both ends of a walk
    through [nodes] as soon as it holds one. *)
Lemma linked_closed (nodes inside : list coord) u v :
  (∀ a b, a ∈ inside → b ∈ nodes → adjacent a b = true → b ∈ inside) →
  linked nodes u v → (u ∈ inside ↔ v ∈ inside).
Proof.
  intros Hclosed. induction 1 as [u Hu|u v w Hlink IH Hw Hadj]; [done|].
  rewrite IH. split.
  - intros Hv. by apply (Hclosed v w).
  - intros Hw'. apply (Hclosed w v); [done| |by rewrite adjacent_sym].
    by apply linked_elem in Hlink as [_ ?].
Qed.

(** The answer false, spelled out over the cells. *)
Lemma has_no_liberties_false g group :
  has_no_liberties g group = false ↔
  ∃ x y nx ny,
    (x, y) ∈ group
    ∧ ((nx = x - 1 ∧ ny = y) ∨ (nx = x + 1 ∧ ny = y)
       ∨ (nx = x ∧ ny = y - 1) ∨ (nx = x ∧ ny = y + 1))
    ∧ in_bounds (size g) nx ny = true
    ∧ getitem (board g) nx ny = 0.
Proof.
  split.
  - intros Hf. unfold has_no_liberties in Hf.
    apply forallb_false_elem in Hf as ([x y] & Hin & Hf).
    apply forallb_false_elem in Hf as ([dx dy] & Hd & Hf).
    cbn [fst snd] in Hf.
    destruct (in_bounds (size g) (x + dx) (y + dy)) eqn:Hb; [|done].
    apply negb_false_iff, Z.eqb_eq in Hf.
    exists x, y, (x + dx), (y + dy). repeat split; try done.
    unfold directions in Hd.
    repeat (apply elem_of_cons in Hd as [Hd|Hd]; [simplify_eq; lia|]).
    by apply elem_of_nil in Hd.
  - intros (x & y & nx & ny & Hin & Hn & Hb & Hz).
    apply not_true_is_false. intros Hno.
    by apply (proj1 (has_no_liberties_true g group) Hno x y Hin nx ny Hn Hb).
Qed.

(** X13.  After [capture_stones] every group of the opponent that is on
    the board has a liberty. *)
Theorem no_dead_group_after_capture g col row h :
  well_shaped (size g) (board g) = true →
  h ∈ get_stone_groups (capture_stones g col row) (other_color g) →
  has_no_liberties (capture_stones g col row) h = false.
Proof.
  intros Hb Hh.
  destruct (capture_stones_exact g col row Hb) as [Hcells _].
  assert (size (capture_stones g col row) = size g) as Hsz.
  { unfold capture_stones.
    by destruct (capture_loop_frame (self_color g)
                   (get_stone_groups g (other_color g)) g) as (-> & _). }
  pose proof (color_code_nonzero (other_color g)) as Hnz.
  set (dead := dead_groups g (get_stone_groups g (other_color g))) in *.
  (* a cell that still holds an opponent stone held it before and is in no
     captured group *)
  assert (∀ x y,
            getitem (board (capture_stones g col row)) x y
              = color_code (other_color g) →
            getitem (board g) x y = color_code (other_color g)
            ∧ (x, y) ∉ concat dead) as Hsurvive.
  { intros x y Hxy. rewrite Hcells in Hxy.
    destruct (decide ((x, y) ∈ concat dead)); [congruence|done]. }
  destruct (get_stone_groups_linked _ _ h Hh) as ([rx ry] & Hroot & _).
  assert (getitem (board (capture_stones g col row)) rx ry
          = color_code (other_color g) ∧ 0 ≤ rx < size g ∧ 0 ≤ ry < size g)
    as (Hrc & Hrx & Hry).
  { rewrite <- Hsz. apply elem_of_get_stone_groups. eauto. }
  destruct (Hsurvive rx ry Hrc) as [Hrg Hrd].
  destruct (proj2 (elem_of_get_stone_groups g (other_color g) rx ry))
    as (G & HG & HrG); [done|].
  (* the group of the root on the board at entry was not captured *)
  assert (has_no_liberties g G = false) as Hlib.
  { apply not_true_is_false. intros Hdead. apply Hrd.
    apply list_elem_of_In, in_concat. exists G.
    rewrite <- !list_elem_of_In. split; [|done].
    by apply list_elem_of_filter. }
  assert (∀ a b, (a, b) ∈ G →
            (a, b) ∈ stones (size (capture_stones g col row))
                       (board (capture_stones g col row)) (other_color g))
    as Hkept.
  { intros a b Hab.
    destruct (proj1 (elem_of_get_stone_groups g (other_color g) a b))
      as (Hc & Ha & Hbb); [by exists G|].
    apply elem_of_stones. rewrite Hsz. split; [|done].
    rewrite Hcells. rewrite decide_False; [done|]. intros Hin.
    apply list_elem_of_In, in_concat in Hin as (D & HD & HinD).
    apply list_elem_of_In in HD, HinD.
    apply list_elem_of_filter in HD as [Hdead HD].
    assert (D = G) as ->
      by (eapply (NoDup_concat_disjoint _ D G (a, b));
          [apply get_stone_groups_NoDup|done..]).
    congruence. }
  (* so all of it is in [h], with one of its liberties *)
  assert (∀ u, u ∈ G → u ∈ h) as Hsub.
  { destruct (get_stone_groups_linked _ _ G HG) as (r0 & Hr0 & Hlinked).
    assert (∀ a b, a ∈ h → b ∈ G → adjacent a b = true → b ∈ h) as Hclosed.
    { intros a [bx by_] Ha Hbg Hadj.
      apply (get_stone_groups_closed _ _ h a (bx, by_) Hh Ha); [|done].
      by apply Hkept. }
    assert (r0 ∈ h) as Hr0h
      by (apply (linked_closed G h r0 (rx, ry) Hclosed); auto).
    intros u Hu. by apply (linked_closed G h r0 u Hclosed); auto. }
  apply has_no_liberties_false in Hlib
    as (x & y & nx & ny & Hin & Hn & Hbnd & Hz).
  apply has_no_liberties_false. exists x, y, nx, ny.
  split; [by apply Hsub|]. split; [done|]. rewrite Hsz. split; [done|].
  rewrite Hcells. by case_decide.
Qed.

(** In the ko position, once Black's stone at (2,1) has taken the white
    stone at (1,1), the white stone at (2,0) is a group with a liberty. *)
Lemma no_dead_group_after_capture_witness :
  has_no_liberties (capture_stones (placed ko_game 2 1) 2 1) [(2, 0)] = false.
Proof.
  apply (no_dead_group_after_capture (placed ko_game 2 1) 2 1 [(2, 0)]).
  - vm_compute. reflexivity.
  - vm_compute. apply list_elem_of_here.
Defined.

(** ** Undo, then play again *)

(** Capture resolution neither reads nor writes the history and the log. *)
Lemma capture_group_with_logs mover g hist log group :
  capture_group mover (with_logs g hist log) group
  = with_logs (capture_group mover g group) hist log.
Proof.
  unfold capture_group.
  change (has_no_liberties (with_logs g hist log) group)
    with (has_no_liberties g group).
  by destruct (has_no_liberties g group).
Qed.

Lemma capture_loop_with_logs mover groups g hist log :
  foldl (capture_group mover) (with_logs g hist log) groups
  = with_logs (foldl (capture_group mover) g groups) hist log.
Proof.
  revert g. induction groups as [|h rest IH]; intros g; [done|].
  cbn [foldl]. by rewrite capture_group_with_logs, IH.
Qed.

Lemma captured_with_logs g hist log col row :
  captured (with_logs g hist log) col row
  = with_logs (captured g col row)
      (hist ++ [(board g, prisoners g)]) (log ++ [board g]).
Proof.
  unfold captured, capture_stones.
  change (placed (with_logs g hist log) col row)
    with (with_logs (placed g col row)
            (hist ++ [(board g, prisoners g)]) (log ++ [board g])).
  apply capture_loop_with_logs.
Qed.

(** One undo after an accepted call: the engine of before the call, with
    one more entry in the log. *)
Lemma undo_move_place_stone g col row g1 :
  place_stone g col row = (true, g1) →
  undo_move g1 = with_logs g (history g) (prev_boards g ++ [board g]).
Proof.
  intros Hplace. apply place_stone_true in Hplace as (_ & _ & ->).
  destruct (captured_frame g col row) as (Hsz & _ & Hh & Hl).
  rewrite (undo_move_snoc _ (board g) (prisoners g) (history g)) by done.
  cbn [size black_turn prev_boards set_black_turn].
  rewrite Hsz, Hl, negb_involutive. by destruct g.
Qed.

(** X4.  Undo, then redo: when a call was accepted and is undone, the
    same call is accepted again and gives the same size, board, turn,
    prisoners and history as the first time. *)
Theorem redo_after_undo g col row g1 :
  well_shaped (size g) (board g) = true →
  place_stone g col row = (true, g1) →
  (place_stone (undo_move g1) col row).1 = true
  ∧ undo_view (place_stone (undo_move g1) col row).2 = undo_view g1.
Proof.
  intros Hb Hplace.
  rewrite (undo_move_place_stone g col row g1 Hplace).
  apply place_stone_true in Hplace as (Hv & _ & ->).
  rewrite place_stone_valid by done.
  rewrite captured_with_logs.
  assert (board (captured g col row) ≠ board g) as Hdiff.
  { intros Heq. apply is_valid_move_spec in Hv as [Hin Hempty].
    assert (in_bounds (size g) col row = true) as Hin'
      by by apply in_bounds_spec.
    pose proof (captured_keeps_own_stones g col row col row Hb
                  (proj1 (placed_cells g col row Hb Hin'))) as Hstone.
    rewrite Heq, Hempty in Hstone.
    by destruct (color_code_nonzero (self_color g)). }
  assert (is_ko_violation
            (with_logs (captured g col row)
               (history g ++ [(board g, prisoners g)])
               ((prev_boards g ++ [board g]) ++ [board g])) = false) as ->.
  { apply not_true_is_false. intros Hko.
    apply is_ko_violation_spec in Hko as (older & newest & Heq).
    cbn [prev_boards board with_logs] in Heq.
    change (older ++ [board (captured g col row); newest])
      with (older ++ [board (captured g col row)] ++ [newest]) in Heq.
    rewrite (assoc_L (++)) in Heq.
    apply app_inj_tail in Heq as [Heq _].
    by apply app_inj_tail in Heq as [_ Heq]. }
  split; [done|]. unfold undo_view. cbn.
  destruct (captured_frame g col row) as (_ & -> & -> & _). done.
Qed.

(** Black's capture at (0,2) of the corner position, undone and redone. *)
Lemma redo_after_undo_witness :
  (place_stone (undo_move (place_stone corner_game 0 2).2) 0 2).1 = true
  ∧ undo_view (place_stone (undo_move (place_stone corner_game 0 2).2) 0 2).2
    = undo_view (place_stone corner_game 0 2).2.
Proof.
  apply (redo_after_undo corner_game 0 2).
  - vm_compute. reflexivity.
  - vm_compute. reflexivity.
Defined.

(** X5.  Undo twice, then replay: when two calls in a row were accepted
    and both are undone, the first of the two calls, made again on what is
    the position it was accepted on, is refused: the log, which undo does
    not shorten, still ends with the boards of the two undone calls. *)
Theorem replay_after_two_undos g col1 row1 g1 col2 row2 g2 :
  place_stone g col1 row1 = (true, g1) →
  place_stone g1 col2 row2 = (true, g2) →
  undo_view (undo_move (undo_move g2)) = undo_view g
  ∧ is_valid_move (undo_move (undo_move g2)) col1 row1 = true
  ∧ (place_stone (undo_move (undo_move g2)) col1 row1).1 = false.
Proof.
  intros Hplace1 Hplace2.
  rewrite (undo_move_place_stone g1 col2 row2 g2 Hplace2).
  pose proof (undo_move_place_stone g col1 row1 g1 Hplace1) as Hundo1.
  apply place_stone_true in Hplace1 as (Hv & _ & Hg1).
  destruct (captured_frame g col1 row1) as (Hsz & Ht & Hh & Hl).
  assert (undo_move (with_logs g1 (history g1) (prev_boards g1 ++ [board g1]))
          = with_logs g (history g)
              ((prev_boards g ++ [board g]) ++ [board g1])) as ->.
  { rewrite (undo_move_snoc _ (board g) (prisoners g) (history g))
      by (subst g1; exact Hh).
    subst g1. cbn [size black_turn prev_boards board with_logs set_black_turn].
    rewrite Hsz, Hl, negb_involutive. by destruct g. }
  split; [done|]. split; [done|].
  rewrite place_stone_valid by done.
  rewrite captured_with_logs.
  assert (is_ko_violation
            (with_logs (captured g col1 row1)
               (history g ++ [(board g, prisoners g)])
               (((prev_boards g ++ [board g]) ++ [board g1]) ++ [board g]))
          = true) as ->; [|done].
  apply is_ko_violation_spec. exists (prev_boards g ++ [board g]), (board g).
  cbn [prev_boards board with_logs]. rewrite <- !(assoc_L (++)).
  subst g1. done.
Qed.

(** Two moves on a fresh board, two undos, and the first move again. *)
Lemma replay_after_two_undos_witness :
  undo_view (undo_move (undo_move (play (init 5) [(2, 2); (3, 3)]).2))
  = undo_view (init 5)
  ∧ is_valid_move
      (undo_move (undo_move (play (init 5) [(2, 2); (3, 3)]).2)) 2 2 = true
  ∧ (place_stone
       (undo_move (undo_move (play (init 5) [(2, 2); (3, 3)]).2)) 2 2).1
    = false.
Proof.
  apply (replay_after_two_undos (init 5) 2 2 (place_stone (init 5) 2 2).2
           3 3 (play (init 5) [(2, 2); (3, 3)]).2).
  - vm_compute. reflexivity.
  - vm_compute. reflexivity.
Defined.

(** ** What a call can change *)

Lemma get_stone_groups_placed_other g col row :
  well_shaped (size g) (board g) = true →
  is_valid_move g col row = true →
  get_stone_groups (placed g col row) (other_color g)
  = get_stone_groups g (other_color g).
Proof.
  intros Hb Hv. unfold get_stone_groups.
  change (size (placed g col row)) with (size g).
  by rewrite stones_placed_other.
Qed.

(** The mover's prisoner count never goes down in capture resolution. *)
Lemma captured_prisoners_self_le g col row :
  well_shaped (size g) (board g) = true →
  count_of (prisoners g) (self_color g)
  ≤ count_of (prisoners (captured g col row)) (self_color g).
Proof.
  intros Hb. unfold captured.
  destruct (capture_stones_exact (placed g col row) col row) as [_ Hpris].
  { by apply (well_shaped_placed g). }
  rewrite Hpris.
  destruct (placed_frame g col row) as (_ & _ & -> & -> & ->).
  destruct (dead_groups _ _); [done|].
  unfold count_of at 2. rewrite lookup_insert_eq. cbn [default].
  unfold id. lia.
Qed.

(** X16.  What a call of [place_stone] can change, accepted or not: the
    size never; a cell other than the one played only from an opponent
    stone to empty; the opponent's prisoner count never; the mover's count
    only upwards; the log only by entries added at its end. *)
Theorem place_stone_frame g col row :
  well_shaped (size g) (board g) = true →
  size (place_stone g col row).2 = size g
  ∧ (∀ x y, (x, y) ≠ (col, row) →
       getitem (board (place_stone g col row).2) x y = getitem (board g) x y
       ∨ (getitem (board g) x y = color_code (other_color g)
          ∧ getitem (board (place_stone g col row).2) x y = 0))
  ∧ count_of (prisoners (place_stone g col row).2) (other_color g)
    = count_of (prisoners g) (other_color g)
  ∧ count_of (prisoners g) (self_color g)
    ≤ count_of (prisoners (place_stone g col row).2) (self_color g)
  ∧ ∃ added, prev_boards (place_stone g col row).2 = prev_boards g ++ added.
Proof.
  intros Hb. destruct (is_valid_move g col row) eqn:Hv.
  2: { rewrite place_stone_invalid by done. cbn [snd].
       repeat split; [by left|done|]. exists []. by rewrite app_nil_r. }
  rewrite place_stone_valid by done.
  destruct (captured_frame g col row) as (Hsz & _ & _ & Hl).
  destruct (captured_cells g col row Hb) as [_ Hcells].
  pose proof (captured_prisoners_other g col row) as Hother.
  pose proof (captured_prisoners_self_le g col row Hb) as Hself.
  pose proof Hv as Hv'. apply is_valid_move_spec in Hv' as [Hin _].
  assert (in_bounds (size g) col row = true) as Hin'
    by by apply in_bounds_spec.
  destruct (placed_cells g col row Hb Hin') as [_ Hplaced].
  assert (∀ x y, (x, y) ≠ (col, row) →
            getitem (board (captured g col row)) x y = getitem (board g) x y
            ∨ (getitem (board g) x y = color_code (other_color g)
               ∧ getitem (board (captured g col row)) x y = 0)) as Hcap.
  { intros x y Hne. rewrite <- (Hplaced x y Hne).
    destruct (Hcells x y) as [->|[-> ->]]; [by left|by right]. }
  destruct (is_ko_violation _);
    cbn [snd size board prisoners prev_boards set_board set_black_turn];
    (split; [done|]); (split; [|split; [done|split; [done|by eexists]]]).
  - intros x y Hne.
    rewrite getitem_setitem_ne; [by apply Hcap|lia|lia|congruence].
  - done.
Qed.

(** Black's capture at (0,2) in the corner position. *)
Lemma place_stone_frame_witness :
  size (place_stone corner_game 0 2).2 = size corner_game
  ∧ (∀ x y, (x, y) ≠ (0, 2) →
       getitem (board (place_stone corner_game 0 2).2) x y
       = getitem (board corner_game) x y
       ∨ (getitem (board corner_game) x y
          = color_code (other_color corner_game)
          ∧ getitem (board (place_stone corner_game 0 2).2) x y = 0))
  ∧ count_of (prisoners (place_stone corner_game 0 2).2)
      (other_color corner_game)
    = count_of (prisoners corner_game) (other_color corner_game)
  ∧ count_of (prisoners corner_game) (self_color corner_game)
    ≤ count_of (prisoners (place_stone corner_game 0 2).2)
        (self_color corner_game)
  ∧ ∃ added, prev_boards (place_stone corner_game 0 2).2
             = prev_boards corner_game ++ added.
Proof.
  apply (place_stone_frame corner_game 0 2). vm_compute. reflexivity.
Defined.

(** X21.  A group of the side that is not to move and that has no liberty
    does not survive the next valid call, wherever the stone is played and
    whether the call is accepted or refused by the ko test: its cells are
    empty after the call. *)
Theorem dead_group_taken_by_next_call g col row h x y :
  well_shaped (size g) (board g) = true →
  is_valid_move g col row = true →
  h ∈ get_stone_groups g (other_color g) →
  has_no_liberties g h = true →
  (x, y) ∈ h →
  getitem (board (place_stone g col row).2) x y = 0.
Proof.
  intros Hb Hv Hh Hdead Hin.
  pose proof Hv as Hv'. apply is_valid_move_spec in Hv' as [Hrange _].
  assert (in_bounds (size g) col row = true) as Hin'
    by by apply in_bounds_spec.
  destruct (placed_cells g col row Hb Hin') as [Hcell Hrest].
  assert (has_no_liberties (placed g col row) h = true) as Hdead'.
  { apply has_no_liberties_true. intros a b Hab nx ny Hn Hbnd.
    destruct (decide ((nx, ny) = (col, row))) as [Heq|Hne].
    - injection Heq as -> ->. rewrite Hcell. apply color_code_nonzero.
    - rewrite Hrest by done.
      by apply (proj1 (has_no_liberties_true g h) Hdead a b Hab nx ny Hn). }
  assert (getitem (board (captured g col row)) x y = 0) as Hgone.
  { unfold captured.
    destruct (capture_stones_exact (placed g col row) col row)
      as [Hcells _]; [by apply (well_shaped_placed g)|].
    rewrite Hcells. rewrite decide_True; [done|].
    apply list_elem_of_In, in_concat. exists h.
    rewrite <- !list_elem_of_In. split; [|done].
    apply list_elem_of_filter. split; [done|].
    change (other_color (placed g col row)) with (other_color g).
    by rewrite get_stone_groups_placed_other. }
  rewrite place_stone_valid by done.
  destruct (is_ko_violation _); cbn [snd board set_board set_black_turn];
    [|done].
  destruct (getitem_setitem_cases (board (captured g col row)) col row 0 x y)
    as [->| ->]; done.
Qed.

(** Black has played the corner (0,0) without a liberty; White answers far
    away, at (3,3), and the black stone is gone. *)
Lemma dead_group_taken_by_next_call_witness :
  getitem (board (place_stone suicide_game 0 0).2) 0 0 = 1
  ∧ getitem
      (board (place_stone (place_stone suicide_game 0 0).2 3 3).2) 0 0 = 0.
Proof.
  split; [vm_compute; reflexivity|].
  apply (dead_group_taken_by_next_call
           (place_stone suicide_game 0 0).2 3 3 [(0, 0)]).
  - vm_compute. reflexivity.
  - vm_compute. reflexivity.
  - vm_compute. apply list_elem_of_here.
  - vm_compute. reflexivity.
  - apply list_elem_of_here.
Defined.

(** X23.  An accepted call never leaves the board that the last entry of
    the log holds, that is, the board the previous valid call started
    from. *)
Theorem accepted_move_not_previous_board g col row g' older b :
  place_stone g col row = (true, g') →
  prev_boards g = older ++ [b] →
  board g' ≠ b.
Proof.
  intros Hplace Hlog Heq.
  apply place_stone_true in Hplace as (_ & Hko & ->).
  cbn [board set_black_turn] in Heq.
  apply not_true_iff_false in Hko. apply Hko.
  apply is_ko_violation_spec. exists older, (board g).
  destruct (captured_frame g col row) as (_ & _ & _ & ->).
  rewrite Hlog, Heq, <- (assoc_L (++)). done.
Qed.

Lemma accepted_move_not_previous_board_witness :
  board ko_game ≠ board (play (init 5) (take 6 ko_moves)).2.
Proof.
  apply (accepted_move_not_previous_board
           (play (init 5) (take 7 ko_moves)).2 1 1 ko_game
           (prev_boards (play (init 5) (take 6 ko_moves)).2)).
  - vm_compute. reflexivity.
  - vm_compute. reflexivity.
Defined.

(** ** Stones played, stones on the board, stones taken *)

Lemma length_filter_one_more {A} (P Q : A → Prop) `{!∀ a, Decision (P a)}
    `{!∀ a, Decision (Q a)} (l : list A) (a : A) :
  NoDup l → a ∈ l → ¬ P a → Q a → (∀ b, b ≠ a → (P b ↔ Q b)) →
  length (filter Q l) = S (length (filter P l)).
Proof.
  intros Hnd Hin Hpa Hqa Hrest.
  induction l as [|b l IH]; [by apply elem_of_nil in Hin|].
  apply NoDup_cons in Hnd as [Hb Hnd].
  rewrite !filter_cons.
  apply elem_of_cons in Hin as [->|Hin].
  - rewrite decide_True, decide_False by done. cbn [length]. f_equal.
    f_equal. symmetry. apply filter_agree. intros c Hc. apply Hrest.
    by intros ->.
  - assert (b ≠ a) as Hne by (by intros ->).
    specialize (Hrest b Hne).
    destruct (decide (P b)), (decide (Q b)); cbn [length];
      rewrite ?IH by done; tauto || done.
Qed.

Lemma well_shaped_place_stone g col row :
  well_shaped (size g) (board g) = true →
  size (place_stone g col row).2 = size g
  ∧ well_shaped (size g) (board (place_stone g col row).2) = true.
Proof.
  intros Hb. destruct (is_valid_move g col row) eqn:Hv;
    [|by rewrite place_stone_invalid].
  rewrite place_stone_valid by done.
  destruct (captured_frame g col row) as (Hsz & _).
  destruct (captured_cells g col row Hb) as [Hw _].
  destruct (is_ko_violation _); cbn [snd size board set_board set_black_turn];
    (split; [done|]); [by apply well_shaped_setitem|done].
Qed.

Section one_valid_call.
Variables (g : GoGame) (col row : Z).
Hypothesis Hb : well_shaped (size g) (board g) = true.
Hypothesis Hv : is_valid_move g col row = true.

Lemma valid_in_bounds : in_bounds (size g) col row = true.
Proof. apply is_valid_move_spec in Hv as [? _]. by apply in_bounds_spec. Qed.

(** Capture resolution keeps the cells of the mover's colour. *)
Lemma captured_own_cell x y :
  getitem (board (captured g col row)) x y = color_code (self_color g)
  ↔ getitem (board (placed g col row)) x y = color_code (self_color g).
Proof.
  split; [|by apply captured_keeps_own_stones].
  destruct (captured_cells g col row Hb) as [_ Hcells].
  destruct (Hcells x y) as [->|[-> _]]; [done|].
  intros Hz. by destruct (color_code_nonzero (self_color g)).
Qed.

(** An accepted call adds one stone of the mover to the board. *)
Lemma stones_self_captured :
  length (stones (size g) (board (captured g col row)) (self_color g))
  = S (length (stones (size g) (board g) (self_color g))).
Proof.
  destruct (placed_cells g col row Hb valid_in_bounds) as [Hcell Hrest].
  pose proof Hv as Hv'. apply is_valid_move_spec in Hv' as [Hin Hempty].
  unfold stones.
  apply (length_filter_one_more _ _ _ (col, row)).
  - apply NoDup_all_spaces.
  - by apply elem_of_all_spaces.
  - cbn [fst snd]. rewrite Hempty.
    intros Hz. by destruct (color_code_nonzero (self_color g)).
  - cbn [fst snd]. by apply captured_own_cell.
  - intros [x y] Hne. cbn [fst snd]. by rewrite captured_own_cell, Hrest.
Qed.

(** A call refused by the ko test leaves the mover's stones as they
    were. *)
Lemma stones_self_reverted :
  stones (size g) (setitem (board (captured g col row)) col row 0)
    (self_color g)
  = stones (size g) (board g) (self_color g).
Proof.
  destruct (placed_cells g col row Hb valid_in_bounds) as [Hcell Hrest].
  destruct (captured_cells g col row Hb) as [Hw _].
  pose proof Hv as Hv'. apply is_valid_move_spec in Hv' as [Hin Hempty].
  unfold stones. apply list_filter_iff. intros [x y]. cbn [fst snd].
  destruct (decide ((x, y) = (col, row))) as [Heq|Hne].
  - injection Heq as -> ->.
    rewrite (getitem_setitem_eq (size g)), Hempty by (done || apply valid_in_bounds).
    done.
  - rewrite getitem_setitem_ne by (lia || congruence).
    by rewrite captured_own_cell, Hrest.
Qed.
End one_valid_call.

Lemma stones_and_prisoners_by_turn g g0 :
  stones_and_prisoners g
  = Z.of_nat (length (stones (size g) (board g) (self_color g0)))
    + Z.of_nat (length (stones (size g) (board g) (other_color g0)))
    + count_of (prisoners g) (self_color g0)
    + count_of (prisoners g) (other_color g0).
Proof.
  unfold stones_and_prisoners, self_color, other_color.
  destruct (black_turn g0); lia.
Qed.

(** One call: the sum grows by one when the call is accepted and stays as
    it is when the call is refused. *)
Lemma stones_and_prisoners_step g col row :
  well_shaped (size g) (board g) = true →
  stones_and_prisoners (place_stone g col row).2
  = stones_and_prisoners g + (if (place_stone g col row).1 then 1 else 0).
Proof.
  intros Hb. destruct (is_valid_move g col row) eqn:Hv.
  2: { rewrite place_stone_invalid by done. cbn [fst snd]. lia. }
  rewrite (stones_and_prisoners_by_turn _ g),
    (stones_and_prisoners_by_turn g g).
  rewrite place_stone_valid by done.
  destruct (captured_frame g col row) as (Hsz & _).
  pose proof (captured_count g col row Hb) as Hcount.
  rewrite stones_placed_other in Hcount by done.
  pose proof (captured_prisoners_other g col row) as Hother.
  destruct (is_ko_violation _);
    cbn [fst snd size board prisoners set_board set_black_turn];
    rewrite Hsz.
  - rewrite stones_self_reverted, stones_reverted_other by done. lia.
  - rewrite stones_self_captured by done. lia.
Qed.

Lemma stones_and_prisoners_play g moves :
  well_shaped (size g) (board g) = true →
  stones_and_prisoners (play g moves).2
  = stones_and_prisoners g + accepted_calls (play g moves).1.
Proof.
  revert g. induction moves as [|m moves IH]; intros g Hb.
  { unfold accepted_calls. cbn. lia. }
  cbn [play].
  pose proof (stones_and_prisoners_step g m.1 m.2 Hb) as Hstep.
  destruct (well_shaped_place_stone g m.1 m.2 Hb) as [Hsz Hw].
  destruct (place_stone g m.1 m.2) as [r g1].
  cbn [fst snd] in *. rewrite <- Hsz in Hw. specialize (IH g1 Hw).
  destruct (play g1 moves) as [rs g2]. cbn [fst snd] in *.
  rewrite IH, Hstep. unfold accepted_calls.
  rewrite (filter_cons (λ r : bool, r = true)).
  destruct r; [rewrite decide_True by done|rewrite decide_False by done];
    cbn [length]; lia.
Qed.

Lemma getitem_zeros n x y : getitem (zeros n) x y = 0.
Proof.
  unfold getitem, zeros.
  destruct ((0 <=? x) && (0 <=? y)); [|done].
  destruct (replicate _ _ !! Z.to_nat x) as [r|] eqn:Hr; [|done].
  apply lookup_replicate in Hr as [-> _].
  destruct (replicate _ _ !! Z.to_nat y) as [v|] eqn:Hv; [|done].
  by apply lookup_replicate in Hv as [-> _].
Qed.

Lemma stones_zeros n color : stones n (zeros n) color = [].
Proof.
  unfold stones. induction (all_spaces n) as [|c l IH]; [done|].
  rewrite (filter_cons (λ c : coord, getitem (zeros n) c.1 c.2
                                     = color_code color)).
  rewrite decide_False; [done|]. rewrite getitem_zeros.
  intros Hz. by destruct (color_code_nonzero color).
Qed.

(** X17.  On an engine that is never undone, the stones on the board and
    the prisoners of both colours add up to the number of calls of
    [place_stone] that returned true: every stone played is on the board
    or counted as a prisoner, also after calls refused by the ko test. *)
Theorem stones_and_prisoners_count_accepted n moves :
  stones_and_prisoners (play (init n) moves).2
  = accepted_calls (play (init n) moves).1.
Proof.
  rewrite stones_and_prisoners_play by apply well_shaped_zeros.
  unfold stones_and_prisoners at 1. cbn [size board prisoners init].
  rewrite !stones_zeros. unfold count_of. rewrite !lookup_empty. cbn. lia.
Qed.

(** ** The prisoner counts and the two stacks *)

Lemma count_of_insert (p : Prisoners) k v c :
  count_of (<[k := v]> p) c = if decide (k = c) then v else count_of p c.
Proof.
  unfold count_of. case_decide as Hk.
  - subst. by rewrite lookup_insert_eq.
  - by rewrite lookup_insert_ne.
Qed.

Lemma capture_loop_counts_nonneg mover groups g :
  counts_nonneg (prisoners g) →
  counts_nonneg (prisoners (foldl (capture_group mover) g groups)).
Proof.
  revert g. induction groups as [|h rest IH]; intros g Hp; [done|].
  cbn [foldl]. apply IH. unfold capture_group.
  destruct (has_no_liberties g h); [|done].
  intros c. cbn [prisoners set_prisoners]. rewrite count_of_insert.
  case_decide; [|apply Hp]. pose proof (Hp mover). lia.
Qed.

Lemma calculate_score_counts g c :
  count_of (prisoners (calculate_score g).2) c = count_of (prisoners g) c.
Proof.
  unfold calculate_score. cbn [snd prisoners set_prisoners].
  rewrite !count_of_insert.
  repeat case_decide; by subst.
Qed.

Lemma ledger_ok_place_stone g col row :
  ledger_ok g → ledger_ok (place_stone g col row).2.
Proof.
  intros (Hp & Hh & Hlen).
  destruct (is_valid_move g col row) eqn:Hv;
    [|by rewrite place_stone_invalid].
  rewrite place_stone_valid by done.
  destruct (captured_frame g col row) as (_ & _ & Hhist & Hlog).
  assert (counts_nonneg (prisoners (captured g col row))) as Hpc.
  { unfold captured, capture_stones. by apply capture_loop_counts_nonneg. }
  assert (Forall (λ s : Board * Prisoners, counts_nonneg s.2)
            (history (captured g col row))) as Hhc.
  { rewrite Hhist. apply Forall_app. split; [done|].
    by rewrite Forall_singleton. }
  assert (length (history (captured g col row))
          ≤ length (prev_boards (captured g col row)))%nat as Hlc.
  { rewrite Hhist, Hlog, !length_app. simpl. lia. }
  by destruct (is_ko_violation _).
Qed.

Lemma ledger_ok_undo_move g : ledger_ok g → ledger_ok (undo_move g).
Proof.
  intros (Hp & Hh & Hlen). unfold undo_move.
  destruct (last (history g)) as [[b p]|] eqn:Hl; [|done].
  apply last_Some in Hl as [hist Hhist]. rewrite Hhist in *.
  rewrite removelast_last. apply Forall_app in Hh as [Hh Hlast].
  rewrite Forall_singleton in Hlast. rewrite length_app in Hlen.
  simpl in Hlen. repeat split; [done|done|]. cbn. lia.
Qed.

(** X18.  In every state an engine reaches, no prisoner count is negative,
    in the engine or in a snapshot of the history, and the previous-boards
    log is at least as long as the history. *)
Theorem reachable_ledger_ok n g : reachable n g → ledger_ok g.
Proof.
  induction 1 as [|g col row _ IH|g _ IH|g _ IH].
  - repeat split; [|by apply Forall_nil|done].
    intros c. unfold count_of. cbn. by rewrite lookup_empty.
  - by apply ledger_ok_place_stone.
  - by apply ledger_ok_undo_move.
  - destruct IH as (Hp & Hh & Hlen). repeat split; [|done|done].
    intros c. rewrite calculate_score_counts. apply Hp.
Qed.

Lemma reachable_ledger_ok_witness : ledger_ok (place_stone ko_game 2 1).2.
Proof.
  apply (reachable_ledger_ok 5).
  apply reachable_place_stone, reachable_play, reachable_init.
Defined.

(** ** The liberty test and the members of a group *)

(** X19.  The answer of [has_no_liberties] on two groups put together is
    the conjunction of the answers on each, and the answer depends on the
    members of the group only, not on their order or on repetitions. *)
Theorem has_no_liberties_members g h1 h2 :
  has_no_liberties g (h1 ++ h2)
  = has_no_liberties g h1 && has_no_liberties g h2
  ∧ ((∀ c, c ∈ h1 ↔ c ∈ h2) →
     has_no_liberties g h1 = has_no_liberties g h2).
Proof.
  split.
  - unfold has_no_liberties. apply forallb_app.
  - intros Hsame. apply eq_true_iff_eq. rewrite !has_no_liberties_true.
    split; intros Hall x y Hin; apply Hall; by apply Hsame.
Qed.

(** ** The score, asked twice *)

(** X20.  The first call of [calculate_score] may add the keys black and
    white to the prisoner dictionary, with the counts they already stand
    for; a second call returns the same score and changes nothing. *)
Theorem calculate_score_twice g :
  prisoners (calculate_score g).2
  = <["white"%string := count_of (prisoners g) "white"]>
      (<["black"%string := count_of (prisoners g) "black"]> (prisoners g))
  ∧ calculate_score (calculate_score g).2
    = ((calculate_score g).1, (calculate_score g).2).
Proof.
  assert (prisoners (calculate_score g).2
          = <["white"%string := count_of (prisoners g) "white"]>
              (<["black"%string := count_of (prisoners g) "black"]>
                 (prisoners g))) as Hp.
  { unfold calculate_score. cbn [snd prisoners set_prisoners].
    by rewrite count_of_insert, decide_False. }
  split; [done|].
  pose proof (calculate_score_counts g "black") as Hb.
  pose proof (calculate_score_counts g "white") as Hw.
  rewrite (calculate_score_spec g).
  unfold calculate_score at 1.
  set (g1 := (calculate_score g).2) in *.
  assert (<["black"%string := count_of (prisoners g1) "black"]> (prisoners g1)
          = prisoners g1) as Hid1.
  { apply insert_id. rewrite Hb, Hp.
    rewrite lookup_insert_ne by done. by rewrite lookup_insert_eq. }
  rewrite Hid1.
  assert (<["white"%string := count_of (prisoners g1) "white"]> (prisoners g1)
          = prisoners g1) as Hid2.
  { apply insert_id. rewrite Hw, Hp. by rewrite lookup_insert_eq. }
  rewrite Hid2, Hb, Hw. by f_equal.
Qed.

(** ** The first move, a move repeated *)

(** X22.  On a fresh engine any point of the board is accepted as Black's
    first move: the call returns true, the board holds that one black
    stone, it is White's turn, nobody has a prisoner, and the history and
    the log hold the empty board. *)
Theorem first_move_accepted n col row :
  0 ≤ col < n → 0 ≤ row < n →
  place_stone (init n) col row
  = (true, mkGoGame n (setitem (zeros n) col row 1) false ∅
             [(zeros n, ∅)] [zeros n]).
Proof.
  intros Hc Hr.
  assert (is_valid_move (init n) col row = true) as Hv.
  { apply is_valid_move_spec. split; [done|]. apply getitem_zeros. }
  rewrite place_stone_valid by done.
  assert (captured (init n) col row = placed (init n) col row) as ->.
  { unfold captured, capture_stones, get_stone_groups.
    assert (stones (size (placed (init n) col row))
              (board (placed (init n) col row))
              (other_color (placed (init n) col row)) = []) as ->; [|done].
    unfold stones. cbn [size board black_turn placed snapshot set_board init
                        other_color].
    induction (all_spaces n) as [|c l IH]; [done|].
    rewrite (filter_cons (λ c : coord,
               getitem (setitem (zeros n) col row 1) c.1 c.2
               = color_code "white")).
    rewrite decide_False; [done|].
    destruct (getitem_setitem_cases (zeros n) col row 1 c.1 c.2)
      as [->| ->]; [done|by rewrite getitem_zeros]. }
  done.
Qed.

Lemma first_move_accepted_witness :
  place_stone (init 5) 2 2
  = (true, mkGoGame 5 (setitem (zeros 5) 2 2 1) false ∅
             [(zeros 5, ∅)] [zeros 5]).
Proof. apply (first_move_accepted 5 2 2); lia. Defined.

(** X14.  An accepted stone holds its point: the same call made again at
    once is refused and changes nothing. *)
Theorem accepted_point_is_taken g col row g' :
  well_shaped (size g) (board g) = true →
  place_stone g col row = (true, g') →
  place_stone g' col row = (false, g').
Proof.
  intros Hb Hplace. apply place_stone_true in Hplace as (Hv & _ & ->).
  apply place_stone_invalid. apply not_true_is_false.
  intros Hv'. apply is_valid_move_spec in Hv' as [_ Hempty].
  cbn [board set_black_turn] in Hempty.
  assert (in_bounds (size g) col row = true) as Hin.
  { apply is_valid_move_spec in Hv as [? _]. by apply in_bounds_spec. }
  pose proof (captured_keeps_own_stones g col row col row Hb
                (proj1 (placed_cells g col row Hb Hin))) as Hstone.
  rewrite Hempty in Hstone.
  by destruct (color_code_nonzero (self_color g)).
Qed.

Lemma accepted_point_is_taken_witness :
  place_stone (place_stone corner_game 0 2).2 0 2
  = (false, (place_stone corner_game 0 2).2).
Proof.
  apply (accepted_point_is_taken corner_game 0 2).
  - vm_compute. reflexivity.
  - vm_compute. reflexivity.
Defined.

(** X7.  A call refused by the ko test and made again at once is
    accepted: the point is empty again, and the board the ko test now
    compares with is the board of before the first attempt, on which that
    point was empty. *)
Theorem ko_refusal_repeated_is_accepted g col row g' :
  well_shaped (size g) (board g) = true →
  is_valid_move g col row = true →
  place_stone g col row = (false, g') →
  (place_stone g' col row).1 = true.
Proof.
  intros Hb Hv Hplace.
  apply place_stone_false_ko in Hplace as [_ ->]; [|done].
  set (g' := set_board (captured g col row)
               (setitem (board (captured g col row)) col row 0)).
  destruct (captured_frame g col row) as (Hsz & Ht & _ & Hlog).
  destruct (captured_cells g col row Hb) as [Hw _].
  pose proof Hv as Hv0. apply is_valid_move_spec in Hv0 as [Hrange Hempty].
  assert (in_bounds (size g) col row = true) as Hin
    by by apply in_bounds_spec.
  assert (size g' = size g) as Hsz' by done.
  assert (well_shaped (size g') (board g') = true) as Hb'.
  { rewrite Hsz'. by apply well_shaped_setitem. }
  assert (is_valid_move g' col row = true) as Hv'.
  { apply is_valid_move_spec. rewrite Hsz'. split; [done|].
    by apply (getitem_setitem_eq (size g)). }
  rewrite place_stone_valid by done.
  assert (is_ko_violation (captured g' col row) = false) as ->; [|done].
  apply not_true_is_false. intros Hko.
  apply is_ko_violation_spec in Hko as (older & newest & Heq).
  destruct (captured_frame g' col row) as (_ & _ & _ & Hlog').
  rewrite Hlog' in Heq. cbn [prev_boards g' set_board] in Heq.
  rewrite Hlog in Heq.
  change (older ++ [board (captured g' col row); newest])
    with (older ++ [board (captured g' col row)] ++ [newest]) in Heq.
  rewrite (assoc_L (++)) in Heq.
  apply app_inj_tail in Heq as [Heq _].
  apply app_inj_tail in Heq as [_ Heq].
  assert (in_bounds (size g') col row = true) as Hin' by (by rewrite Hsz').
  pose proof (captured_keeps_own_stones g' col row col row Hb'
                (proj1 (placed_cells g' col row Hb' Hin'))) as Hstone.
  rewrite <- Heq, Hempty in Hstone.
  by destruct (color_code_nonzero (self_color g')).
Qed.

(** In the ko position Black's recapture, refused once, is accepted the
    second time. *)
Lemma ko_refusal_repeated_is_accepted_witness :
  (place_stone ko_game 2 1).1 = false
  ∧ (place_stone (place_stone ko_game 2 1).2 2 1).1 = true.
Proof.
  split; [vm_compute; reflexivity|].
  apply (ko_refusal_repeated_is_accepted ko_game 2 1).
  - vm_compute. reflexivity.
  - vm_compute. reflexivity.
  - vm_compute. reflexivity.
Defined.

(** ** Whose turn it is *)

Lemma place_stone_turn g col row :
  black_turn (place_stone g col row).2
  = if (place_stone g col row).1 then negb (black_turn g) else black_turn g.
Proof.
  destruct (is_valid_move g col row) eqn:Hv;
    [|by rewrite place_stone_invalid].
  rewrite place_stone_valid by done.
  destruct (captured_frame g col row) as (_ & Ht & _).
  destruct (is_ko_violation _); cbn; by rewrite Ht.
Qed.

Lemma accepted_calls_cons r rs :
  accepted_calls (r :: rs)
  = (if r then 1 else 0) + accepted_calls rs.
Proof.
  unfold accepted_calls. rewrite (filter_cons (λ r : bool, r = true)).
  destruct r; [rewrite decide_True by done|rewrite decide_False by done];
    cbn [length]; lia.
Qed.

Lemma play_turn g moves :
  black_turn (play g moves).2
  = if Z.even (accepted_calls (play g moves).1) then black_turn g
    else negb (black_turn g).
Proof.
  revert g. induction moves as [|m moves IH]; intros g; [done|].
  cbn [play]. pose proof (place_stone_turn g m.1 m.2) as Hstep.
  destruct (place_stone g m.1 m.2) as [r g1]. specialize (IH g1).
  destruct (play g1 moves) as [rs g2]. cbn [fst snd] in *.
  rewrite IH, Hstep, accepted_calls_cons. destruct r.
  - replace (1 + accepted_calls rs) with (Z.succ (accepted_calls rs)) by lia.
    rewrite Z.even_succ, <- Z.negb_even.
    destruct (Z.even (accepted_calls rs)); cbn; by rewrite ?negb_involutive.
  - done.
Qed.

(** X15.  On an engine that is never undone it is Black's turn exactly
    when the number of calls of [place_stone] that returned true is even:
    refused calls, invalid or ko, do not pass the turn. *)
Theorem turn_is_parity_of_accepted n moves :
  black_turn (play (init n) moves).2
  = Z.even (accepted_calls (play (init n) moves).1).
Proof.
  rewrite play_turn. cbn [black_turn init].
  by destruct (Z.even _).
Qed.

(** ** Undo at the bottom of the history *)

Lemma undo_moves_add n k g :
  undo_moves (n + k) g = undo_moves k (undo_moves n g).
Proof.
  revert g. induction n as [|n IH]; intros g; [done|].
  cbn [Nat.add undo_moves]. apply IH.
Qed.

Lemma undo_moves_no_history k g :
  history g = [] → undo_moves k g = g.
Proof.
  intros Hh. induction k as [|k IH]; [done|].
  cbn [undo_moves]. unfold undo_move. by rewrite Hh.
Qed.

Lemma undo_moves_empties n g :
  length (history g) = n → history (undo_moves n g) = [].
Proof.
  revert g. induction n as [|n IH]; intros g Hlen.
  - by apply nil_length_inv.
  - cbn [undo_moves]. apply IH. unfold undo_move.
    destruct (last (history g)) as [[b p]|] eqn:Hl.
    + apply last_Some in Hl as [hist Hh]. cbn [history].
      rewrite Hh, removelast_last. rewrite Hh, length_app in Hlen.
      simpl in Hlen. lia.
    + apply last_None in Hl. rewrite Hl in Hlen. simpl in Hlen. lia.
Qed.

(** X8.  [undo_move] stops at the bottom of the history: as many calls as
    the history has snapshots empty it, and any number of further calls
    changes nothing. *)
Theorem undo_stops_at_bottom g k :
  history (undo_moves (length (history g)) g) = []
  ∧ undo_moves (length (history g) + k) g
    = undo_moves (length (history g)) g.
Proof.
  pose proof (undo_moves_empties (length (history g)) g eq_refl) as Hempty.
  split; [done|]. rewrite undo_moves_add. by apply undo_moves_no_history.
Qed.
